(** * Fractal mesh generation (utils/fractalGeneration): a shallow embedding

    The generators of the repository build an indexed triangle mesh by
    recursive subdivision.  Every corner point goes through
    [addUniqueVertex], which welds points whose coordinates agree once
    rendered by [toFixed(5)].

    JavaScript numbers are IEEE 754 binary64 values; they are modelled
    by Rocq's primitive floats, which are the same format with the same
    round-to-nearest-even arithmetic.  The shared mutable arrays and the
    [Map] passed down the recursion are one record threaded through a
    state monad. *)

From Stdlib Require Import ZArith Floats DecimalString Ascii.
From stdpp Require Import gmap strings list.

Local Open Scope Z_scope.

(** ** Numbers and [Number.prototype.toFixed] *)

Module JSNumber.

(** Decimal digits of a non-negative integer, most significant first
    (["0"] for zero). *)
Definition digits (n : Z) : string :=
  NilZero.string_of_uint (N.to_uint (Z.to_N n)).

Fixpoint zeros (k : nat) : string :=
  match k with
  | O => EmptyString
  | S k' => String "0"%char (zeros k')
  end.

(** ECMAScript [toFixed], step "let n be an integer for which
    n / 10^f - x is as close to zero as possible; if there are two such
    n, pick the larger", for x = m * 2^e and f = 5. *)
Definition round_scaled (m : positive) (e : Z) : Z :=
  if 0 <=? e then Z.pos m * 2 ^ e * 10 ^ 5
  else (2 * Z.pos m * 10 ^ 5 + 2 ^ (- e)) / (2 * 2 ^ (- e)).

(** The digits of [n] padded on the left to at least six characters,
    with the point before the last five. *)
Definition fixed_point (n : Z) : string :=
  let m := digits n in
  let k := String.length m in
  let m' := if (k <=? 5)%nat then zeros (6 - k) +:+ m else m in
  let k' := String.length m' in
  String.substring 0 (k' - 5) m' +:+ "." +:+ String.substring (k' - 5) 5 m'.

(** x >= 10^21 for x = m * 2^e. *)
Definition ge_1e21 (m : positive) (e : Z) : bool :=
  if 0 <=? e then 10 ^ 21 <=? Z.pos m * 2 ^ e
  else 10 ^ 21 * 2 ^ (- e) <=? Z.pos m.

(** *** [Number::toString] for finite x >= 10^21

    Such an x = m * 2^e is an integer with a 53-bit mantissa.  The
    shortest digit string s (k digits) with s * 10^(n-k) rounding to x
    is looked for, nearest to x among those of that length, the even
    one on a tie; the result is printed in exponent notation. *)

(** Does the integer [v] round to m * 2^e (nearest, ties to even)?
    Everything is doubled so that half-gaps are integers. *)
Definition rounds_to (m : positive) (e : Z) (v : Z) : bool :=
  let x2 := 2 * Z.pos m * 2 ^ e in
  let lo := x2 - (if (Z.pos m =? 2 ^ 52) then 2 ^ (e - 1) else 2 ^ e) in
  let hi := x2 + 2 ^ e in
  if Z.even (Z.pos m) then (lo <=? 2 * v) && (2 * v <=? hi)
  else (lo <? 2 * v) && (2 * v <? hi).

Definition exponent_form (s : Z) (n : Z) : string :=
  let d := digits s in
  let c := digits (n - 1) in
  match d with
  | String a EmptyString => String a ("e+" +:+ c)
  | String a rest => String a ("." +:+ rest +:+ "e+" +:+ c)
  | EmptyString => EmptyString
  end.

Definition shortest_at (m : positive) (e : Z) (n : Z) (k : Z) : option Z :=
  let x := Z.pos m * 2 ^ e in
  let p := 10 ^ (n - k) in
  let s_lo := x / p in
  let s_hi := s_lo + 1 in
  let ok_lo := rounds_to m e (s_lo * p) in
  let ok_hi := (s_hi <? 10 ^ k) && rounds_to m e (s_hi * p) in
  match ok_lo, ok_hi with
  | true, true =>
      let d_lo := x - s_lo * p in
      let d_hi := s_hi * p - x in
      if d_lo <? d_hi then Some s_lo
      else if d_hi <? d_lo then Some s_hi
      else if Z.even s_lo then Some s_lo else Some s_hi
  | true, false => Some s_lo
  | false, true => Some s_hi
  | false, false => None
  end.

Fixpoint shortest_from (m : positive) (e : Z) (n : Z) (k : Z) (fuel : nat) : Z :=
  match fuel with
  | O => Z.pos m * 2 ^ e
  | S fuel' =>
      match shortest_at m e n k with
      | Some s => s
      | None => shortest_from m e n (k + 1) fuel'
      end
  end.

Definition toString_large (m : positive) (e : Z) : string :=
  let x := Z.pos m * 2 ^ e in
  let n := Z.of_nat (String.length (digits x)) in
  if rounds_to m e (10 ^ n) then exponent_form 1 (n + 1)
  else
    let s := shortest_from m e n 1 (Z.to_nat n) in
    exponent_form s n.

(** The rendering of the magnitude x = m * 2^e: [Number::toString]
    from 10^21 on, the rounded fixed-point digits below. *)
Definition magnitude5 (m : positive) (e : Z) : string :=
  if ge_1e21 m e then toString_large m e
  else fixed_point (round_scaled m e).

(** [x.toFixed(5)]: non-finite values print as [Number::toString]
    does, both zeros print unsigned, and a negative number prints as
    ["-"] followed by the rendering of its magnitude. *)
Definition toFixed5 (x : float) : string :=
  match Prim2SF x with
  | S754_nan => "NaN"
  | S754_infinity s => if s then "-Infinity" else "Infinity"
  | S754_zero _ => fixed_point 0
  | S754_finite s m e => (if s then "-" else "") +:+ magnitude5 m e
  end.

End JSNumber.

Import JSNumber.

(** The characters of a string, and strings that hold neither the
    separator of the weld keys nor a sign. *)
Fixpoint chars (s : string) : list ascii :=
  match s with
  | EmptyString => []
  | String c s' => c :: chars s'
  end.

Definition plain_char (c : ascii) : Prop := c ≠ ","%char ∧ c ≠ "-"%char.

Definition plain (s : string) : Prop := Forall plain_char (chars s).

(** 2^52, the mantissa of 0.5 = 2^52 * 2^-53 and of 2 = 2^52 * 2^-51. *)
Definition two52 : positive := 4503599627370496.

(** Positive finite numbers. *)
Definition positive_finite (x : float) : bool :=
  match Prim2SF x with
  | S754_finite false _ _ => true
  | _ => false
  end.

(** ** Data model *)

(** [THREE.Vector3], of which the generators use the three fields,
    [clone], [add] and [multiplyScalar]. *)
Record Vector3 : Type := mkVector3 { x : float; y : float; z : float }.

Definition Vector3_add (a b : Vector3) : Vector3 :=
  mkVector3 (x a + x b)%float (y a + y b)%float (z a + z b)%float.

Definition Vector3_multiplyScalar (a : Vector3) (s : float) : Vector3 :=
  mkVector3 (x a * s)%float (y a * s)%float (z a * s)%float.

Record Face : Type := mkFace { v1 : nat; v2 : nat; v3 : nat }.

(** The arrays and the map that every generator allocates once and
    passes by reference down its recursion. *)
Record Store : Type := mkStore {
  allBufferVertices : list float;
  allBufferIndices : list nat;
  vertexMap : gmap string nat;
  allExportVertices : list Vector3;
  allExportFaces : list Face
}.

Record GenerationOutput : Type := mkOutput {
  bufferVertices : list float;
  bufferIndices : list nat;
  exportVertices : list Vector3;
  exportFaces : list Face
}.

Definition empty_store : Store := mkStore [] [] ∅ [] [].

Definition output_of (st : Store) : GenerationOutput :=
  mkOutput (allBufferVertices st) (allBufferIndices st)
           (allExportVertices st) (allExportFaces st).

(** ** The state monad of the generators *)

Definition Gen (A : Type) : Type := Store → A * Store.

#[export] Instance gen_ret : MRet Gen := λ A (a : A) st, (a, st).
#[export] Instance gen_bind : MBind Gen :=
  λ A B (f : A → Gen B) (c : Gen A) st, let '(a, st') := c st in f a st'.

Definition exec {A} (c : Gen A) (st : Store) : Store := snd (c st).

(** [xs.map(f)] with an effectful callback, left to right. *)
Fixpoint mapG {A B} (f : A → Gen B) (xs : list A) : Gen (list B) :=
  match xs with
  | [] => mret []
  | x :: xs' => b ← f x; bs ← mapG f xs'; mret (b :: bs)
  end.

(** [xs.forEach(f)], and a [for] loop over the values [xs]. *)
Fixpoint forG {A} (xs : list A) (f : A → Gen unit) : Gen unit :=
  match xs with
  | [] => mret tt
  | x :: xs' => f x;; forG xs' f
  end.

(** ** The weld table *)

Definition vertex_key (v : Vector3) : string :=
  toFixed5 (x v) +:+ "," +:+ toFixed5 (y v) +:+ "," +:+ toFixed5 (z v).

Definition addUniqueVertex (vertex : Vector3) : Gen nat := λ st,
  let key := vertex_key vertex in
  match vertexMap st !! key with
  | Some i => (i, st)
  | None =>
      let newIndex := length (allExportVertices st) in
      (newIndex,
       mkStore (allBufferVertices st ++ [x vertex; y vertex; z vertex])
               (allBufferIndices st)
               (<[key := newIndex]> (vertexMap st))
               (allExportVertices st ++ [vertex])
               (allExportFaces st))
  end.

(** [allBufferIndices.push(a, b, c); allExportFaces.push({v1: a, v2: b, v3: c})]. *)
Definition push_face (f : nat * nat * nat) : Gen unit := λ st,
  let '(a, b, c) := f in
  (tt, mkStore (allBufferVertices st)
               (allBufferIndices st ++ [a; b; c])
               (vertexMap st)
               (allExportVertices st)
               (allExportFaces st ++ [mkFace a b c])).

(** [idx[i]] on the array returned by [vertices.map]. *)
Definition at_ (idx : list nat) (i : nat) : nat := nth i idx 0%nat.

(** ** Tetrahedron *)

Definition midpoint (p q : Vector3) : Vector3 :=
  Vector3_multiplyScalar (Vector3_add p q) 0.5%float.

Fixpoint subdivideTetrahedron (level : nat) (p1 p2 p3 p4 : Vector3) : Gen unit :=
  match level with
  | O =>
      idx1 ← addUniqueVertex p1;
      idx2 ← addUniqueVertex p2;
      idx3 ← addUniqueVertex p3;
      idx4 ← addUniqueVertex p4;
      push_face (idx1, idx3, idx2);;
      push_face (idx1, idx2, idx4);;
      push_face (idx1, idx4, idx3);;
      push_face (idx2, idx3, idx4)
  | S level' =>
      let m12 := midpoint p1 p2 in
      let m13 := midpoint p1 p3 in
      let m14 := midpoint p1 p4 in
      let m23 := midpoint p2 p3 in
      let m24 := midpoint p2 p4 in
      let m34 := midpoint p3 p4 in
      subdivideTetrahedron level' p1 m12 m13 m14;;
      subdivideTetrahedron level' m12 p2 m23 m24;;
      subdivideTetrahedron level' m13 m23 p3 m34;;
      subdivideTetrahedron level' m14 m24 m34 p4
  end.

Definition generateSierpinskiTetrahedron (level : nat) (size : float) : GenerationOutput :=
  let p1 := mkVector3 size size size in
  let p2 := mkVector3 size (- size) (- size) in
  let p3 := mkVector3 (- size) size (- size) in
  let p4 := mkVector3 (- size) (- size) size in
  output_of (exec (subdivideTetrahedron level p1 p2 p3 p4) empty_store).

(** ** Sponge *)

(** The loop counters [i], [j], [k] as numbers. *)
Definition of_int (i : Z) : float :=
  match i with
  | Z0 => 0%float
  | Zpos p => of_uint63 (Uint63.of_Z (Zpos p))
  | Zneg p => (- of_uint63 (Uint63.of_Z (Zpos p)))%float
  end.

Definition cube_corners (center : Vector3) (halfSide : float) : list Vector3 :=
  [ mkVector3 (x center - halfSide) (y center - halfSide) (z center + halfSide);
    mkVector3 (x center + halfSide) (y center - halfSide) (z center + halfSide);
    mkVector3 (x center + halfSide) (y center + halfSide) (z center + halfSide);
    mkVector3 (x center - halfSide) (y center + halfSide) (z center + halfSide);
    mkVector3 (x center - halfSide) (y center - halfSide) (z center - halfSide);
    mkVector3 (x center + halfSide) (y center - halfSide) (z center - halfSide);
    mkVector3 (x center + halfSide) (y center + halfSide) (z center - halfSide);
    mkVector3 (x center - halfSide) (y center + halfSide) (z center - halfSide) ]%float.

Definition cube_faces (idx : list nat) : list (nat * nat * nat) :=
  [ (at_ idx 0, at_ idx 1, at_ idx 2); (at_ idx 0, at_ idx 2, at_ idx 3);
    (at_ idx 4, at_ idx 7, at_ idx 6); (at_ idx 4, at_ idx 6, at_ idx 5);
    (at_ idx 3, at_ idx 2, at_ idx 6); (at_ idx 3, at_ idx 6, at_ idx 7);
    (at_ idx 0, at_ idx 4, at_ idx 5); (at_ idx 0, at_ idx 5, at_ idx 1);
    (at_ idx 0, at_ idx 3, at_ idx 7); (at_ idx 0, at_ idx 7, at_ idx 4);
    (at_ idx 1, at_ idx 5, at_ idx 6); (at_ idx 1, at_ idx 6, at_ idx 2) ]%nat.

Definition zeroCount (i j k : Z) : nat :=
  let c0 := 0%nat in
  let c1 := if i =? 0 then S c0 else c0 in
  let c2 := if j =? 0 then S c1 else c1 in
  if k =? 0 then S c2 else c2.

Definition sub_cube_center (center : Vector3) (newSideLength : float) (i j k : Z) : Vector3 :=
  let offset := mkVector3 (of_int i * newSideLength)%float
                          (of_int j * newSideLength)%float
                          (of_int k * newSideLength)%float in
  Vector3_add center offset.

Fixpoint subdivideCube (level : nat) (center : Vector3) (sideLength : float) : Gen unit :=
  match level with
  | O =>
      let halfSide := (sideLength / 2)%float in
      idx ← mapG addUniqueVertex (cube_corners center halfSide);
      forG (cube_faces idx) push_face
  | S level' =>
      let newSideLength := (sideLength / 3)%float in
      forG [-1; 0; 1] (λ i,
        forG [-1; 0; 1] (λ j,
          forG [-1; 0; 1] (λ k,
            if (zeroCount i j k <? 2)%nat
            then subdivideCube level' (sub_cube_center center newSideLength i j k)
                               newSideLength
            else mret tt)))
  end.

Definition generateMengerSponge (level : nat) (size : float) : GenerationOutput :=
  output_of (exec (subdivideCube level (mkVector3 0 0 0) size) empty_store).

(** ** Octahedron *)

Definition octa_points (center : Vector3) (scale : float) : list Vector3 :=
  [ mkVector3 (x center) (y center + scale) (z center);
    mkVector3 (x center) (y center - scale) (z center);
    mkVector3 (x center + scale) (y center) (z center);
    mkVector3 (x center - scale) (y center) (z center);
    mkVector3 (x center) (y center) (z center + scale);
    mkVector3 (x center) (y center) (z center - scale) ]%float.

Definition octa_faces (idx : list nat) : list (nat * nat * nat) :=
  [ (at_ idx 0, at_ idx 4, at_ idx 2); (at_ idx 0, at_ idx 2, at_ idx 5);
    (at_ idx 0, at_ idx 5, at_ idx 3); (at_ idx 0, at_ idx 3, at_ idx 4);
    (at_ idx 1, at_ idx 2, at_ idx 4); (at_ idx 1, at_ idx 5, at_ idx 2);
    (at_ idx 1, at_ idx 3, at_ idx 5); (at_ idx 1, at_ idx 4, at_ idx 3) ]%nat.

Fixpoint subdivideOctahedron (level : nat) (center : Vector3) (scale : float) : Gen unit :=
  match level with
  | O =>
      idx ← mapG addUniqueVertex (octa_points center scale);
      forG (octa_faces idx) push_face
  | S level' =>
      let newScale := (scale * 0.5)%float in
      (* the array literal lists the same six offsets as the level-0
         vertices, with [newScale] for [scale] *)
      let newSubOctahedraCenters := octa_points center newScale in
      forG newSubOctahedraCenters (λ newCenterForSub,
        subdivideOctahedron level' newCenterForSub newScale)
  end.

Definition generateSierpinskiOctahedron (level : nat) (size : float) : GenerationOutput :=
  output_of (exec (subdivideOctahedron level (mkVector3 0 0 0) size) empty_store).

(** ** The three families behind one entry point

    The caller picks the generator from the kind of the request. *)

Inductive FractalType : Type :=
  | SierpinskiTetrahedron
  | MengerSponge
  | SierpinskiOctahedron.

Definition generate (kind : FractalType) (level : nat) (size : float) : GenerationOutput :=
  match kind with
  | SierpinskiTetrahedron => generateSierpinskiTetrahedron level size
  | MengerSponge => generateMengerSponge level size
  | SierpinskiOctahedron => generateSierpinskiOctahedron level size
  end.

(** ** Well-formed stores *)

Definition coords (p : Vector3) : list float := [x p; y p; z p].
Definition face_indices (f : Face) : list nat := [v1 f; v2 f; v3 f].

Definition face_in_range (n : nat) (f : Face) : Prop :=
  (v1 f < n ∧ v2 f < n ∧ v3 f < n)%nat.

(** What the five shared objects satisfy between any two calls of the
    generators. *)
Record store_wf (st : Store) : Prop := mk_store_wf {
  wf_buffer :
    allBufferVertices st = concat (coords <$> allExportVertices st);
  wf_indices :
    allBufferIndices st = concat (face_indices <$> allExportFaces st);
  wf_map_sound : ∀ (k : string) (i : nat),
    vertexMap st !! k = Some i →
    ∃ p, allExportVertices st !! i = Some p ∧ vertex_key p = k;
  wf_map_complete : ∀ (i : nat) (p : Vector3),
    allExportVertices st !! i = Some p →
    vertexMap st !! vertex_key p = Some i;
  wf_faces :
    Forall (face_in_range (length (allExportVertices st))) (allExportFaces st)
}.

(** [st'] is [st] after some more pushes and [Map.set]s of fresh keys. *)
Record store_ext (st st' : Store) : Prop := mk_store_ext {
  ext_points : allExportVertices st `prefix_of` allExportVertices st';
  ext_faces : allExportFaces st `prefix_of` allExportFaces st';
  ext_map : vertexMap st ⊆ vertexMap st'
}.

(** ** Cells

    At level 0 every generator welds the corners of one cell and emits
    the faces of a fixed table of corner positions. *)

Definition table : Type := list (nat * nat * nat).

Definition pick (idx : list nat) (t : table) : list (nat * nat * nat) :=
  (λ '(a, b, c), (at_ idx a, at_ idx b, at_ idx c)) <$> t.

Definition weld_cell (corners : list Vector3) (t : table) : Gen unit :=
  idx ← mapG addUniqueVertex corners;
  forG (pick idx t) push_face.

Definition tetra_table : table :=
  [ (0, 2, 1); (0, 1, 3); (0, 3, 2); (1, 2, 3) ]%nat.

Definition cube_table : table :=
  [ (0, 1, 2); (0, 2, 3); (4, 7, 6); (4, 6, 5); (3, 2, 6); (3, 6, 7);
    (0, 4, 5); (0, 5, 1); (0, 3, 7); (0, 7, 4); (1, 5, 6); (1, 6, 2) ]%nat.

Definition octa_table : table :=
  [ (0, 4, 2); (0, 2, 5); (0, 5, 3); (0, 3, 4);
    (1, 2, 4); (1, 5, 2); (1, 3, 5); (1, 4, 3) ]%nat.

(** A table over [n] corners whose entries name three different
    positions. *)
Definition table_ok (n : nat) (t : table) : Prop :=
  Forall (λ '(a, b, c),
    (a < n ∧ b < n ∧ c < n)%nat ∧ a ≠ b ∧ b ≠ c ∧ a ≠ c) t.

(** The cells reached by each recursion, in the order of the calls. *)
Definition cell : Type := list Vector3.

Fixpoint tetra_cells (level : nat) (p1 p2 p3 p4 : Vector3) : list cell :=
  match level with
  | O => [[p1; p2; p3; p4]]
  | S level' =>
      let m12 := midpoint p1 p2 in
      let m13 := midpoint p1 p3 in
      let m14 := midpoint p1 p4 in
      let m23 := midpoint p2 p3 in
      let m24 := midpoint p2 p4 in
      let m34 := midpoint p3 p4 in
      tetra_cells level' p1 m12 m13 m14 ++
      tetra_cells level' m12 p2 m23 m24 ++
      tetra_cells level' m13 m23 p3 m34 ++
      tetra_cells level' m14 m24 m34 p4
  end.

(** The 27 grid indices of the three nested loops of [subdivideCube],
    in loop order. *)
Definition grid : list (Z * Z * Z) :=
  i ← [-1; 0; 1]; j ← [-1; 0; 1]; k ← [-1; 0; 1]; [(i, j, k)].

(** The grid indices for which the loop body of [subdivideCube]
    recurses, in loop order. *)
Definition kept_grid : list (Z * Z * Z) :=
  i ← [-1; 0; 1]; j ← [-1; 0; 1]; k ← [-1; 0; 1];
  if (zeroCount i j k <? 2)%nat then [(i, j, k)] else [].

Fixpoint cube_cells (level : nat) (center : Vector3) (sideLength : float) : list cell :=
  match level with
  | O => [cube_corners center (sideLength / 2)%float]
  | S level' =>
      let newSideLength := (sideLength / 3)%float in
      '(i, j, k) ← kept_grid;
      cube_cells level' (sub_cube_center center newSideLength i j k) newSideLength
  end.

Fixpoint octa_cells (level : nat) (center : Vector3) (scale : float) : list cell :=
  match level with
  | O => [octa_points center scale]
  | S level' =>
      let newScale := (scale * 0.5)%float in
      newCenter ← octa_points center newScale;
      octa_cells level' newCenter newScale
  end.

Definition cells (kind : FractalType) (level : nat) (size : float) : list cell :=
  match kind with
  | SierpinskiTetrahedron =>
      tetra_cells level (mkVector3 size size size)
                        (mkVector3 size (- size) (- size))
                        (mkVector3 (- size) size (- size))
                        (mkVector3 (- size) (- size) size)
  | MengerSponge => cube_cells level (mkVector3 0 0 0) size
  | SierpinskiOctahedron => octa_cells level (mkVector3 0 0 0) size
  end.

(** The recursion that each entry point starts on its fresh store. *)
Definition start (kind : FractalType) (level : nat) (size : float) : Gen unit :=
  match kind with
  | SierpinskiTetrahedron =>
      subdivideTetrahedron level (mkVector3 size size size)
                                 (mkVector3 size (- size) (- size))
                                 (mkVector3 (- size) size (- size))
                                 (mkVector3 (- size) (- size) size)
  | MengerSponge => subdivideCube level (mkVector3 0 0 0) size
  | SierpinskiOctahedron => subdivideOctahedron level (mkVector3 0 0 0) size
  end.

(** Faces emitted per cell. *)
Definition faces_per_cell (kind : FractalType) : nat :=
  match kind with
  | SierpinskiTetrahedron => 4
  | MengerSponge => 12
  | SierpinskiOctahedron => 8
  end.

Definition distinct_keys (c : cell) : Prop := NoDup (vertex_key <$> c).

(** The three renderings that [vertex_key] joins with commas. *)
Definition key3 (v : Vector3) : string * string * string :=
  (toFixed5 (x v), toFixed5 (y v), toFixed5 (z v)).

Definition comma_free (s : string) : Prop :=
  Forall (λ c, c ≠ ","%char) (chars s).

Definition face_nondegenerate (f : Face) : Prop :=
  v1 f ≠ v2 f ∧ v2 f ≠ v3 f ∧ v1 f ≠ v3 f.

(** What running [c] from a well-formed store [st] guarantees, when [c]
    visits the cells [L] and emits [k] faces for each. *)
Record run_spec (L : list cell) (k : nat) (c : Gen unit) (st : Store) : Prop :=
  mk_run_spec {
  run_wf : store_wf (exec c st);
  run_ext : store_ext st (exec c st);
  run_faces :
    length (allExportFaces (exec c st)) =
    (length (allExportFaces st) + k * length L)%nat;
  run_nondeg :
    Forall distinct_keys L →
    Forall face_nondegenerate (allExportFaces st) →
    Forall face_nondegenerate (allExportFaces (exec c st))
}.

Definition respects (L : list cell) (k : nat) (c : Gen unit) : Prop :=
  ∀ st, store_wf st → run_spec L k c st.

Definition branching (kind : FractalType) : nat :=
  match kind with
  | SierpinskiTetrahedron => 4
  | MengerSponge => 20
  | SierpinskiOctahedron => 6
  end.

(** Numbers of points and of faces of an output. *)
Definition counts (o : GenerationOutput) : nat * nat :=
  (length (exportVertices o), length (exportFaces o)).

(** ** The weld tolerance

    The specification's notion of two points being within the weld
    tolerance: each of the three coordinates differs by less than
    10^-5.  Finite binary64 values are integer multiples of 2^-1074, so
    the comparison is made exactly on those integers. *)
Definition units (x : float) : option Z :=
  match Prim2SF x with
  | S754_zero _ => Some 0
  | S754_finite s m e =>
      let v := Z.pos m * 2 ^ (e + 1074) in Some (if s then - v else v)
  | _ => None
  end.

Definition closer_than_1e5 (x y : float) : bool :=
  match units x, units y with
  | Some a, Some b => Z.abs (a - b) * 10 ^ 5 <? 2 ^ 1074
  | _, _ => false
  end.

Definition within_weld_tolerance (p q : Vector3) : bool :=
  closer_than_1e5 (x p) (x q) &&
  closer_than_1e5 (y p) (y q) &&
  closer_than_1e5 (z p) (z q).

#[export] Instance distinct_keys_dec (c : cell) : Decision (distinct_keys c) :=
  NoDup_dec (vertex_key <$> c).


(** * Beyond the claims: definitions *)

(** ** The run as one loop over its cells *)

Definition table_of (kind : FractalType) : table :=
  match kind with
  | SierpinskiTetrahedron => tetra_table
  | MengerSponge => cube_table
  | SierpinskiOctahedron => octa_table
  end.

Definition corners_per_cell (kind : FractalType) : nat :=
  match kind with
  | SierpinskiTetrahedron => 4
  | MengerSponge => 8
  | SierpinskiOctahedron => 6
  end.

(** Welding the cells [L] one after the other, each with the table [t]. *)
Definition weld_all (L : list cell) (t : table) : Gen unit :=
  forG L (λ c, weld_cell c t).

(** ** A reference mesh without the map

    The point list obtained by going through the corners in order and
    keeping a corner when no kept point has its key; the position of a
    key in a point list; the face of a table entry. *)
Definition weld_step (pts : list Vector3) (v : Vector3) : list Vector3 :=
  if decide (vertex_key v ∈ vertex_key <$> pts) then pts else pts ++ [v].

Definition welded_onto (pts : list Vector3) (vs : list Vector3) : list Vector3 :=
  foldl weld_step pts vs.

Definition find_key (pts : list Vector3) (k : string) : nat :=
  from_option fst 0%nat (list_find (λ p, vertex_key p = k) pts).

Definition corner_key (c : list Vector3) (a : nat) : string :=
  from_option vertex_key EmptyString (c !! a).

Definition face_of (pts : list Vector3) (c : list Vector3) (e : nat * nat * nat) : Face :=
  let '(a, b, d) := e in
  mkFace (find_key pts (corner_key c a))
         (find_key pts (corner_key c b))
         (find_key pts (corner_key c d)).

Definition reference_mesh (t : table) (L : list cell) : GenerationOutput :=
  let pts := welded_onto [] (concat L) in
  let fs := c ← L; face_of pts c <$> t in
  mkOutput (concat (coords <$> pts)) (concat (face_indices <$> fs)) pts fs.

(** Every position below [n] occurs in some entry of the table. *)
Definition table_covers (n : nat) (t : table) : Prop :=
  ∀ a, (a < n)%nat → Exists (λ '(i, j, k), a = i ∨ a = j ∨ a = k) t.

(** ** What a face stands for *)

(** Index [i] of the point list stands for corner [a] of the cell [c]:
    the point stored at [i] has the key of that corner. *)
Definition stands_for (pts : list Vector3) (i : nat)
    (c : list Vector3) (a : nat) : Prop :=
  ∃ p v, pts !! i = Some p ∧ c !! a = Some v ∧ vertex_key p = vertex_key v.

Definition joins (pts : list Vector3)
    (ce : list Vector3 * (nat * nat * nat)) (f : Face) : Prop :=
  let '(c, (a, b, d)) := ce in
  stands_for pts (v1 f) c a ∧ stands_for pts (v2 f) c b ∧
  stands_for pts (v3 f) c d.

(** The table entries of the cells, cell after cell. *)
Definition cell_entries (t : table) (L : list (list Vector3)) :
    list (list Vector3 * (nat * nat * nat)) :=
  c ← L; (λ e, (c, e)) <$> t.

(** The mesh of one cell whose corners are all kept: the corners in
    order, the table read as faces, and the two flattenings. *)
Definition cell_mesh (c : list Vector3) (t : table) : GenerationOutput :=
  mkOutput (concat (coords <$> c))
           (concat ((λ '(a, b, d), [a; b; d]) <$> t))
           c
           ((λ '(a, b, d), mkFace a b d) <$> t).

(** ** The callers: constants.ts, ControlsPanel.tsx and App.tsx *)

(** [MAX_LEVELS] of constants.ts. *)
Definition MAX_LEVELS (t : FractalType) : Z :=
  match t with
  | SierpinskiTetrahedron => 10
  | MengerSponge => 10
  | SierpinskiOctahedron => 10
  end.

Module ControlsPanel.

(** [FractalParameters] of types.ts; the sliders deliver whole levels. *)
Record FractalParameters : Type := mkParams {
  type : FractalType;
  level : Z;
  size : float;
  color : string
}.

(** [handleFractalTypeChange], as the state it sets for the selected
    [newType]. *)
Definition handleFractalTypeChange (newType : FractalType)
    (fractalParams : FractalParameters) : FractalParameters :=
  let newLevel := level fractalParams in
  let newLevel :=
    if MAX_LEVELS newType <? newLevel then Z.min 2 (MAX_LEVELS newType)
    else newLevel in
  let newLevel :=
    match newType with
    | MengerSponge => if newLevel <? 0 then 0 else newLevel
    | _ => newLevel
    end in
  mkParams newType newLevel (size fractalParams) (color fractalParams).

End ControlsPanel.

Module App.

(** What [generateFractalLogic] does with the output of the generator:
    shows the no-geometry message, builds the preview mesh, or neither. *)
Inductive Outcome : Type :=
  | NoGeometryMessage
  | MeshBuilt
  | NoMesh.

(** The branches of [generateFractalLogic] after the generator has
    returned; [sceneReady] stands for the scene, camera and controls
    references being set. *)
Definition generateFractalLogic (type : FractalType) (level : nat) (size : float)
    (isPreviewDisabled sceneReady : bool) : Outcome :=
  let output := generate type level size in
  let threshold := match type with MengerSponge => -1 | _ => 0 end in
  if (length (exportVertices output) =? 0)%nat && (threshold <? Z.of_nat level)
  then NoGeometryMessage
  else if (0 <? length (exportVertices output))%nat
  then (if negb isPreviewDisabled && sceneReady then MeshBuilt else NoMesh)
  else NoMesh.

(** The test of [handleExportObj] (and of [canExport]) on the stored
    vertices and faces. *)
Definition handleExportObj_exports (generatedVertices : list Vector3)
    (generatedFaces : list Face) : bool :=
  (0 <? length generatedVertices)%nat && (0 <? length generatedFaces)%nat.

End App.

(** A face has two equal indices exactly where the two corners that its
    table entry names have the same key. *)
Definition degenerate_where_welded
    (ce : list Vector3 * (nat * nat * nat)) (f : Face) : Prop :=
  let '(c, (a, b, d)) := ce in
  (v1 f = v2 f ↔ corner_key c a = corner_key c b) ∧
  (v2 f = v3 f ↔ corner_key c b = corner_key c d) ∧
  (v1 f = v3 f ↔ corner_key c a = corner_key c d).

(** ** Size zero *)

Definition is_zero (a : float) : bool :=
  match Prim2SF a with
  | S754_zero _ => true
  | _ => false
  end.

Definition zero_vector (v : Vector3) : Prop :=
  is_zero (x v) = true ∧ is_zero (y v) = true ∧ is_zero (z v) = true.

(** * Proofs *)

(** ** The number model on known values *)

Example toFixed5_values :
  toFixed5 1 = "1.00000" ∧ toFixed5 (-1) = "-1.00000" ∧
  toFixed5 0 = "0.00000" ∧ toFixed5 (-0) = "0.00000" ∧
  toFixed5 0.5 = "0.50000" ∧ toFixed5 123456.75 = "123456.75000" ∧
  toFixed5 0x1p-17 = "0.00001" ∧
  toFixed5 0x1p-20 = "0.00000" ∧ toFixed5 (-0x1p-20) = "-0.00000" ∧
  toFixed5 1e21 = "1e+21" ∧ toFixed5 0x1p70 = "1.1805916207174113e+21" ∧
  toFixed5 infinity = "Infinity" ∧ toFixed5 nan = "NaN".
Proof. by vm_compute. Qed.

Example of_int_values :
  of_int (-1) = (-1)%float ∧ of_int 0 = 0%float ∧ of_int 1 = 1%float.
Proof. by vm_compute. Qed.

#[export] Instance store_ext_refl : Reflexive store_ext.
Proof. intros st. by split. Qed.

#[export] Instance store_ext_trans : Transitive store_ext.
Proof.
  intros a b c [] []. split; by etrans.
Qed.

(** ** The weld table keeps the store well formed *)

Lemma empty_store_wf : store_wf empty_store.
Proof.
  by split.
Qed.

Lemma face_in_range_mono (n n' : nat) (f : Face) :
  (n ≤ n')%nat → face_in_range n f → face_in_range n' f.
Proof. unfold face_in_range. lia. Qed.

Lemma addUniqueVertex_wf (v : Vector3) (st st' : Store) (i : nat) :
  store_wf st →
  addUniqueVertex v st = (i, st') →
  store_wf st' ∧ store_ext st st' ∧
  vertexMap st' !! vertex_key v = Some i ∧
  allExportFaces st' = allExportFaces st.
Proof.
  intros Hwf. unfold addUniqueVertex.
  destruct (vertexMap st !! vertex_key v) as [i0|] eqn:Hk.
  - intros [= <- <-]. by split_and!.
  - intros [= <- <-]. destruct Hwf as [Hb Hi Hs Hc Hf]. simpl.
    split; [split; simpl|split; [split; simpl|split]].
    + by rewrite fmap_app, concat_app, Hb.
    + done.
    + intros k i. rewrite lookup_insert. case_decide as Hkk.
      * intros [= <-]. exists v. split; [|done].
        by rewrite list_lookup_middle.
      * intros Hl. destruct (Hs k i Hl) as (p & Hp & Hkp).
        exists p. split; [|done]. by apply lookup_app_l_Some.
    + intros i p Hp. apply lookup_app_Some in Hp as [Hp|[Hlen Hp]].
      * pose proof (Hc i p Hp) as Hm.
        rewrite lookup_insert_ne; [done|]. intros Heq.
        rewrite <- Heq in Hm. congruence.
      * destruct (i - length (allExportVertices st))%nat as [|d] eqn:Hd;
          [|by destruct d].
        injection Hp as <-. assert (i = length (allExportVertices st)) as -> by lia.
        by rewrite lookup_insert_eq.
    + eapply Forall_impl; [exact Hf|]. intros f.
      apply face_in_range_mono. rewrite length_app. lia.
    + by apply prefix_app_r.
    + done.
    + by apply insert_subseteq.
    + by rewrite lookup_insert_eq.
    + done.
Qed.

Lemma push_face_wf (a b c : nat) (st : Store) :
  store_wf st →
  (a < length (allExportVertices st))%nat →
  (b < length (allExportVertices st))%nat →
  (c < length (allExportVertices st))%nat →
  store_wf (exec (push_face (a, b, c)) st).
Proof.
  intros [Hb Hi Hs Hc Hf] Ha Hbb Hcc. split; simpl; try done.
  - by rewrite fmap_app, concat_app, Hi.
  - apply Forall_app. split; [done|]. by repeat constructor.
Qed.

Lemma push_face_ext (f : nat * nat * nat) (st : Store) :
  store_ext st (exec (push_face f) st).
Proof.
  destruct f as [[a b] c]. split; simpl; try done. by apply prefix_app_r.
Qed.



(** ** Welding the corners of one cell *)

Lemma mapG_addUniqueVertex_wf (vs : list Vector3) (st st' : Store) (idx : list nat) :
  store_wf st →
  mapG addUniqueVertex vs st = (idx, st') →
  store_wf st' ∧ store_ext st st' ∧
  Forall2 (λ v i, vertexMap st' !! vertex_key v = Some i) vs idx ∧
  allExportFaces st' = allExportFaces st.
Proof.
  revert st idx. induction vs as [|v vs IH]; intros st idx Hwf; simpl.
  - intros [= <- <-]. by split_and!.
  - unfold mbind, gen_bind.
    destruct (addUniqueVertex v st) as [i st1] eqn:H1.
    destruct (mapG addUniqueVertex vs st1) as [js st2] eqn:H2.
    intros [= <- <-].
    destruct (addUniqueVertex_wf _ _ _ _ Hwf H1) as (Hwf1 & Hext1 & Hk1 & Hf1).
    destruct (IH _ _ Hwf1 H2) as (Hwf2 & Hext2 & Hall & Hf2).
    split_and!; [done|by etrans| |congruence].
    constructor; [|done].
    eapply lookup_weaken; [exact Hk1|]. by destruct Hext2.
Qed.

(** Welding stores no point other than the corners it is given. *)
Lemma mapG_addUniqueVertex_points (vs : list Vector3) (st st' : Store) (idx : list nat) :
  mapG addUniqueVertex vs st = (idx, st') →
  ∀ p, p ∈ allExportVertices st' → p ∈ allExportVertices st ∨ p ∈ vs.
Proof.
  revert st idx. induction vs as [|v vs IH]; intros st idx; simpl.
  - intros [= <- <-] p Hp. by left.
  - unfold mbind, gen_bind.
    destruct (addUniqueVertex v st) as [i st1] eqn:H1.
    destruct (mapG addUniqueVertex vs st1) as [js st2] eqn:H2.
    intros [= <- <-] p Hp.
    destruct (IH _ _ H2 p Hp) as [Hp1|Hp1]; [|right; by right].
    unfold addUniqueVertex in H1.
    destruct (vertexMap st !! vertex_key v); injection H1 as <- <-.
    + by left.
    + simpl in Hp1. apply elem_of_app in Hp1 as [Hp1|Hp1].
      * by left.
      * apply list_elem_of_singleton in Hp1 as ->. right. by left.
Qed.

(** When none of the keys is in the map yet and they are pairwise
    distinct, the corners are appended as they are and numbered from the
    current length on. *)
Lemma mapG_addUniqueVertex_fresh (vs : list Vector3) (st : Store) :
  NoDup (vertex_key <$> vs) →
  Forall (λ v, vertexMap st !! vertex_key v = None) vs →
  ∃ st',
    mapG addUniqueVertex vs st =
      (seq (length (allExportVertices st)) (length vs), st') ∧
    allExportVertices st' = allExportVertices st ++ vs ∧
    allExportFaces st' = allExportFaces st.
Proof.
  revert st. induction vs as [|v vs IH]; intros st Hnd Hfresh; simpl.
  - exists st. by rewrite app_nil_r.
  - rewrite fmap_cons in Hnd. apply NoDup_cons in Hnd as [Hv Hnd].
    apply Forall_cons in Hfresh as [Hv0 Hfresh].
    unfold mbind, gen_bind, addUniqueVertex at 1. rewrite Hv0.
    set (st1 := mkStore _ _ _ _ _).
    destruct (IH st1 Hnd) as (st' & Hrun & Hp & Hf).
    { apply Forall_forall. intros w Hw. simpl.
      rewrite lookup_insert_ne.
      - by apply (proj1 (Forall_forall _ _) Hfresh).
      - intros Heq. apply Hv. rewrite Heq. by apply list_elem_of_fmap_2. }
    exists st'. rewrite Hrun, Hp, Hf. simpl.
    rewrite length_app, <- app_assoc. simpl.
    by rewrite Nat.add_1_r.
Qed.

(** ** Running sequences and loops *)

Lemma exec_seq (c1 c2 : Gen unit) (st : Store) :
  exec (c1;; c2) st = exec c2 (exec c1 st).
Proof.
  unfold exec, mbind, gen_bind. by destruct (c1 st).
Qed.

Lemma exec_forG_nil {A} (f : A → Gen unit) (st : Store) :
  exec (forG [] f) st = st.
Proof. done. Qed.

Lemma exec_forG_cons {A} (x : A) (xs : list A) (f : A → Gen unit) (st : Store) :
  exec (forG (x :: xs) f) st = exec (forG xs f) (exec (f x) st).
Proof. simpl. by rewrite exec_seq. Qed.

Lemma exec_forG_app {A} (xs ys : list A) (f : A → Gen unit) (st : Store) :
  exec (forG (xs ++ ys) f) st = exec (forG ys f) (exec (forG xs f) st).
Proof.
  revert st. induction xs as [|x xs IH]; intros st; [done|].
  rewrite <- app_comm_cons, !exec_forG_cons. apply IH.
Qed.

Lemma exec_forG_push_face (fs : list (nat * nat * nat)) (st : Store) :
  exec (forG fs push_face) st =
  mkStore (allBufferVertices st)
          (allBufferIndices st ++ concat ((λ '(a, b, c), [a; b; c]) <$> fs))
          (vertexMap st)
          (allExportVertices st)
          (allExportFaces st ++ ((λ '(a, b, c), mkFace a b c) <$> fs)).
Proof.
  revert st. induction fs as [|[[a b] c] fs IH]; intros st.
  - rewrite exec_forG_nil. simpl. rewrite !app_nil_r. by destruct st.
  - rewrite exec_forG_cons, IH. simpl. by rewrite <- !app_assoc.
Qed.

(** ** Composing run specifications *)

Section Compose.

(** The number of faces emitted per cell is the same along one run. *)
Variable k : nat.

Lemma respects_equiv (L : list cell) (c c' : Gen unit) :
  (∀ st, c st = c' st) → respects L k c → respects L k c'.
Proof.
  intros Heq Hc st Hwf. destruct (Hc st Hwf) as [H1 H2 H3 H4].
  assert (exec c' st = exec c st) as Hx by (unfold exec; by rewrite Heq).
  split; by rewrite Hx.
Qed.

Lemma respects_ret : respects [] k (mret tt).
Proof.
  intros st Hwf.
  split; change (exec (mret tt) st) with st; try done. simpl. lia.
Qed.

Lemma respects_seq (L1 L2 : list cell) (c1 c2 : Gen unit) :
  respects L1 k c1 → respects L2 k c2 → respects (L1 ++ L2) k (c1;; c2).
Proof.
  intros H1 H2 st Hwf.
  destruct (H1 st Hwf) as [Hwf1 Hext1 Hn1 Hd1].
  destruct (H2 _ Hwf1) as [Hwf2 Hext2 Hn2 Hd2].
  split; rewrite exec_seq.
  - done.
  - by etrans.
  - rewrite Hn2, Hn1, length_app. lia.
  - intros [HL1 HL2]%Forall_app Hst. auto.
Qed.

Lemma respects_forG {A} (Lf : A → list cell)
    (xs : list A) (f : A → Gen unit) :
  (∀ x, x ∈ xs → respects (Lf x) k (f x)) →
  respects (xs ≫= Lf) k (forG xs f).
Proof.
  induction xs as [|x xs IH]; intros Hf.
  - apply respects_ret.
  - simpl. apply respects_seq.
    + apply Hf. by left.
    + apply IH. intros y Hy. apply Hf. by right.
Qed.

End Compose.

(** ** One cell *)

Lemma at_lookup (vs : list Vector3) (idx : list nat) (m : gmap string nat) (a : nat) :
  Forall2 (λ v i, m !! vertex_key v = Some i) vs idx →
  (a < length vs)%nat →
  ∃ v, vs !! a = Some v ∧ m !! vertex_key v = Some (at_ idx a).
Proof.
  intros Hall Ha.
  destruct (lookup_lt_is_Some_2 vs a Ha) as [v Hv].
  destruct (Forall2_lookup_l _ _ _ _ _ Hall Hv) as (i & Hi & Hm).
  exists v. split; [done|]. unfold at_. by rewrite nth_lookup, Hi.
Qed.

Lemma at_in_range (vs : list Vector3) (idx : list nat) (st : Store) (a : nat) :
  store_wf st →
  Forall2 (λ v i, vertexMap st !! vertex_key v = Some i) vs idx →
  (a < length vs)%nat →
  (at_ idx a < length (allExportVertices st))%nat.
Proof.
  intros Hwf Hall Ha.
  destruct (at_lookup _ _ _ _ Hall Ha) as (v & _ & Hm).
  destruct (wf_map_sound _ Hwf _ _ Hm) as (p & Hp & _).
  by eapply lookup_lt_Some.
Qed.

Lemma at_distinct (vs : list Vector3) (idx : list nat) (st : Store) (a b : nat) :
  store_wf st →
  Forall2 (λ v i, vertexMap st !! vertex_key v = Some i) vs idx →
  distinct_keys vs →
  (a < length vs)%nat → (b < length vs)%nat → a ≠ b →
  at_ idx a ≠ at_ idx b.
Proof.
  intros Hwf Hall Hnd Ha Hb Hab Heq.
  destruct (at_lookup _ _ _ _ Hall Ha) as (v & Hv & Hmv).
  destruct (at_lookup _ _ _ _ Hall Hb) as (w & Hw & Hmw).
  destruct (wf_map_sound _ Hwf _ _ Hmv) as (p & Hp & Hkp).
  destruct (wf_map_sound _ Hwf _ _ Hmw) as (q & Hq & Hkq).
  rewrite Heq in Hp. assert (p = q) as -> by congruence.
  apply Hab. eapply (NoDup_lookup _ a b (vertex_key v) Hnd).
  - by rewrite list_lookup_fmap, Hv.
  - rewrite list_lookup_fmap, Hw. simpl. congruence.
Qed.

Lemma respects_cell (corners : list Vector3) (t : table) :
  table_ok (length corners) t →
  respects [corners] (length t) (weld_cell corners t).
Proof.
  intros Ht st Hwf.
  destruct (mapG addUniqueVertex corners st) as [idx st1] eqn:Hrun.
  destruct (mapG_addUniqueVertex_wf _ _ _ _ Hwf Hrun)
    as (Hwf1 & Hext1 & Hall & Hf1).
  assert (Hx : exec (weld_cell corners t) st =
               exec (forG (pick idx t) push_face) st1).
  { unfold weld_cell, exec, mbind, gen_bind. by rewrite Hrun. }
  rewrite exec_forG_push_face in Hx.
  assert (Hrange : Forall (face_in_range (length (allExportVertices st1)))
            ((λ '(a, b, c), mkFace a b c) <$> pick idx t)).
  { unfold pick. rewrite <- list_fmap_compose. apply Forall_fmap.
    eapply Forall_impl; [exact Ht|]. intros [[a b] c] ((Ha & Hb & Hc) & _).
    unfold face_in_range; simpl. split_and!; by eapply at_in_range. }
  split; rewrite Hx.
  - destruct Hwf1 as [Hb Hi Hs Hc Hf]. split; simpl; try done.
    + rewrite fmap_app, concat_app, Hi. f_equal.
      unfold pick. rewrite <- !list_fmap_compose.
      f_equal. apply list_fmap_ext. by intros _ [[a b] c] _.
    + by apply Forall_app.
  - etrans; [exact Hext1|]. destruct Hext1.
    split; simpl; try done. by apply prefix_app_r.
  - simpl. rewrite length_app, Hf1. unfold pick.
    rewrite !length_fmap. simpl. lia.
  - simpl. intros [Hnd _]%Forall_cons Hst. rewrite Hf1.
    apply Forall_app. split; [done|].
    unfold pick. rewrite <- list_fmap_compose. apply Forall_fmap.
    eapply Forall_impl; [exact Ht|].
    intros [[a b] c] ((Ha & Hb & Hc) & Hab & Hbc & Hac).
    unfold face_nondegenerate; simpl.
    split_and!; by eapply at_distinct.
Qed.

(** ** The three recursions *)

Lemma tetra_table_ok : table_ok 4 tetra_table.
Proof. unfold table_ok, tetra_table. repeat constructor; lia. Qed.

Lemma cube_table_ok : table_ok 8 cube_table.
Proof. unfold table_ok, cube_table. repeat constructor; lia. Qed.

Lemma octa_table_ok : table_ok 6 octa_table.
Proof. unfold table_ok, octa_table. repeat constructor; lia. Qed.

Lemma subdivideTetrahedron_base (p1 p2 p3 p4 : Vector3) (st : Store) :
  weld_cell [p1; p2; p3; p4] tetra_table st =
  subdivideTetrahedron 0 p1 p2 p3 p4 st.
Proof.
  unfold weld_cell, subdivideTetrahedron, mbind, gen_bind. simpl.
  unfold mbind, gen_bind.
  destruct (addUniqueVertex p1 st) as [i1 st1].
  destruct (addUniqueVertex p2 st1) as [i2 st2].
  destruct (addUniqueVertex p3 st2) as [i3 st3].
  by destruct (addUniqueVertex p4 st3) as [i4 st4].
Qed.

Lemma exec_subdivideTetrahedron_base (p1 p2 p3 p4 : Vector3) (st : Store) :
  exec (subdivideTetrahedron 0 p1 p2 p3 p4) st =
  exec (weld_cell [p1; p2; p3; p4] tetra_table) st.
Proof. unfold exec. by rewrite subdivideTetrahedron_base. Qed.

Lemma subdivideCube_base (center : Vector3) (sideLength : float) (st : Store) :
  subdivideCube 0 center sideLength st =
  weld_cell (cube_corners center (sideLength / 2)%float) cube_table st.
Proof. reflexivity. Qed.

Lemma subdivideOctahedron_base (center : Vector3) (scale : float) (st : Store) :
  subdivideOctahedron 0 center scale st =
  weld_cell (octa_points center scale) octa_table st.
Proof. reflexivity. Qed.

(** The three nested loops of [subdivideCube] run their body on the
    kept grid indices, one after the other. *)
Lemma subdivideCube_step (level : nat) (center : Vector3) (sideLength : float)
    (st : Store) :
  subdivideCube (S level) center sideLength st =
  forG kept_grid (λ '(i, j, k),
    subdivideCube level
      (sub_cube_center center (sideLength / 3)%float i j k)
      (sideLength / 3)%float) st.
Proof.
  cbn -[subdivideCube sub_cube_center]. unfold mbind, gen_bind.
  change (subdivideCube (S level) center sideLength st) with
    (forG [-1; 0; 1] (λ i, forG [-1; 0; 1] (λ j, forG [-1; 0; 1] (λ k,
       if (zeroCount i j k <? 2)%nat
       then subdivideCube level
              (sub_cube_center center (sideLength / 3)%float i j k)
              (sideLength / 3)%float
       else mret tt))) st).
  cbn -[subdivideCube sub_cube_center]. unfold mbind, gen_bind, mret, gen_ret.
  repeat (match goal with
          | |- context [subdivideCube level ?c ?s ?t] =>
              lazymatch t with
              | context [subdivideCube] => fail
              | _ => destruct (subdivideCube level c s t) as [[] ?]
              end
          end).
  reflexivity.
Qed.

Lemma subdivideTetrahedron_respects (level : nat) (p1 p2 p3 p4 : Vector3) :
  respects (tetra_cells level p1 p2 p3 p4) 4
           (subdivideTetrahedron level p1 p2 p3 p4).
Proof.
  revert p1 p2 p3 p4. induction level as [|level IH]; intros p1 p2 p3 p4.
  - eapply respects_equiv; [apply subdivideTetrahedron_base|].
    apply (respects_cell _ tetra_table), tetra_table_ok.
  - simpl. repeat apply respects_seq; apply IH.
Qed.

Lemma subdivideCube_respects (level : nat) (center : Vector3) (sideLength : float) :
  respects (cube_cells level center sideLength) 12
           (subdivideCube level center sideLength).
Proof.
  revert center sideLength.
  induction level as [|level IH]; intros center sideLength.
  - apply (respects_cell _ cube_table), cube_table_ok.
  - eapply respects_equiv.
    { intros st. symmetry. apply subdivideCube_step. }
    change (cube_cells (S level) center sideLength) with
      (kept_grid ≫= λ '(i, j, k),
         cube_cells level
           (sub_cube_center center (sideLength / 3)%float i j k)
           (sideLength / 3)%float).
    apply respects_forG. intros [[i j] k] _. apply IH.
Qed.

Lemma subdivideOctahedron_respects (level : nat) (center : Vector3) (scale : float) :
  respects (octa_cells level center scale) 8
           (subdivideOctahedron level center scale).
Proof.
  revert center scale. induction level as [|level IH]; intros center scale.
  - apply (respects_cell _ octa_table), octa_table_ok.
  - change (octa_cells (S level) center scale) with
      (octa_points center (scale * 0.5)%float ≫= λ c,
         octa_cells level c (scale * 0.5)%float).
    change (subdivideOctahedron (S level) center scale) with
      (forG (octa_points center (scale * 0.5)%float) (λ c,
         subdivideOctahedron level c (scale * 0.5)%float)).
    apply respects_forG. intros c _. apply IH.
Qed.

Lemma generate_start (kind : FractalType) (level : nat) (size : float) :
  generate kind level size =
  output_of (exec (start kind level size) empty_store).
Proof. by destruct kind. Qed.

Lemma start_respects (kind : FractalType) (level : nat) (size : float) :
  respects (cells kind level size) (faces_per_cell kind)
           (start kind level size).
Proof.
  destruct kind.
  - apply subdivideTetrahedron_respects.
  - apply subdivideCube_respects.
  - apply subdivideOctahedron_respects.
Qed.

(** ** Numbers of cells *)

Lemma length_bind_const {A B} (f : A → list B) (n : nat) (xs : list A) :
  (∀ x, length (f x) = n) → length (xs ≫= f) = (length xs * n)%nat.
Proof.
  intros Hf. induction xs as [|x xs IH]; [done|].
  rewrite bind_cons, length_app, Hf, IH. simpl. lia.
Qed.

Lemma length_tetra_cells (level : nat) (p1 p2 p3 p4 : Vector3) :
  length (tetra_cells level p1 p2 p3 p4) = (4 ^ level)%nat.
Proof.
  revert p1 p2 p3 p4. induction level as [|level IH]; intros; [done|].
  cbn [tetra_cells]. rewrite !length_app, !IH, Nat.pow_succ_r'. lia.
Qed.

Lemma length_cube_cells (level : nat) (center : Vector3) (sideLength : float) :
  length (cube_cells level center sideLength) = (20 ^ level)%nat.
Proof.
  revert center sideLength. induction level as [|level IH]; intros; [done|].
  cbn [cube_cells].
  rewrite (length_bind_const _ (20 ^ level)%nat).
  - rewrite Nat.pow_succ_r'. by vm_compute (length kept_grid).
  - intros [[i j] k]. apply IH.
Qed.

Lemma length_octa_cells (level : nat) (center : Vector3) (scale : float) :
  length (octa_cells level center scale) = (6 ^ level)%nat.
Proof.
  revert center scale. induction level as [|level IH]; intros; [done|].
  cbn [octa_cells].
  rewrite (length_bind_const _ (6 ^ level)%nat) by (intros; apply IH).
  by rewrite Nat.pow_succ_r'.
Qed.

Lemma length_cells (kind : FractalType) (level : nat) (size : float) :
  length (cells kind level size) = (branching kind ^ level)%nat.
Proof.
  destruct kind; simpl.
  - apply length_tetra_cells.
  - apply length_cube_cells.
  - apply length_octa_cells.
Qed.

(** ** What every output satisfies *)

Lemma start_run_spec (kind : FractalType) (level : nat) (size : float) :
  run_spec (cells kind level size) (faces_per_cell kind)
           (start kind level size) empty_store.
Proof. apply start_respects, empty_store_wf. Qed.

Lemma length_faces (kind : FractalType) (level : nat) (size : float) :
  length (exportFaces (generate kind level size)) =
  (faces_per_cell kind * branching kind ^ level)%nat.
Proof.
  rewrite generate_start. simpl.
  by rewrite (run_faces _ _ _ _ (start_run_spec kind level size)), length_cells.
Qed.

Lemma start_wf (kind : FractalType) (level : nat) (size : float) :
  store_wf (exec (start kind level size) empty_store).
Proof. apply (run_wf _ _ _ _ (start_run_spec kind level size)). Qed.

Lemma faces_in_range (kind : FractalType) (level : nat) (size : float) :
  Forall (face_in_range (length (exportVertices (generate kind level size))))
         (exportFaces (generate kind level size)).
Proof.
  rewrite generate_start. apply (wf_faces _ (start_wf kind level size)).
Qed.

Lemma length_concat_coords (ps : list Vector3) :
  length (concat (coords <$> ps)) = (3 * length ps)%nat.
Proof.
  induction ps as [|p ps IH]; [done|].
  rewrite fmap_cons. cbn [concat coords app length]. rewrite IH. lia.
Qed.

Lemma length_concat_face_indices (fs : list Face) :
  length (concat (face_indices <$> fs)) = (3 * length fs)%nat.
Proof.
  induction fs as [|f fs IH]; [done|].
  rewrite fmap_cons. cbn [concat face_indices app length]. rewrite IH. lia.
Qed.

Lemma lookup_concat_coords (ps : list Vector3) (i : nat) (p : Vector3) :
  ps !! i = Some p →
  concat (coords <$> ps) !! (3 * i)%nat = Some (x p) ∧
  concat (coords <$> ps) !! (3 * i + 1)%nat = Some (y p) ∧
  concat (coords <$> ps) !! (3 * i + 2)%nat = Some (z p).
Proof.
  revert i. induction ps as [|q ps IH]; intros i; [done|].
  destruct i as [|i]; simpl.
  - by intros [= ->].
  - intros Hp. destruct (IH i Hp) as (Hx & Hy & Hz).
    replace (i + S (i + S (i + 0)))%nat with (S (S (3 * i))) by lia.
    simpl. split_and!; [done| |].
    + by replace (3 * i + 1)%nat with (i + (i + (i + 0)) + 1)%nat in Hy by lia.
    + by replace (3 * i + 2)%nat with (i + (i + (i + 0)) + 2)%nat in Hz by lia.
Qed.

Lemma lookup_concat_face_indices (fs : list Face) (j : nat) (f : Face) :
  fs !! j = Some f →
  concat (face_indices <$> fs) !! (3 * j)%nat = Some (v1 f) ∧
  concat (face_indices <$> fs) !! (3 * j + 1)%nat = Some (v2 f) ∧
  concat (face_indices <$> fs) !! (3 * j + 2)%nat = Some (v3 f).
Proof.
  revert j. induction fs as [|g fs IH]; intros j; [done|].
  destruct j as [|j]; simpl.
  - by intros [= ->].
  - intros Hf. destruct (IH j Hf) as (Hx & Hy & Hz).
    replace (j + S (j + S (j + 0)))%nat with (S (S (3 * j))) by lia.
    simpl. split_and!; [done| |].
    + by replace (3 * j + 1)%nat with (j + (j + (j + 0)) + 1)%nat in Hy by lia.
    + by replace (3 * j + 2)%nat with (j + (j + (j + 0)) + 2)%nat in Hz by lia.
Qed.

Lemma store_wf_keys_NoDup (st : Store) :
  store_wf st → NoDup (vertex_key <$> allExportVertices st).
Proof.
  intros Hwf. apply NoDup_alt. intros i j k Hi Hj.
  rewrite list_lookup_fmap in Hi, Hj.
  destruct (allExportVertices st !! i) as [p|] eqn:Hp; [|done].
  destruct (allExportVertices st !! j) as [q|] eqn:Hq; [|done].
  simpl in Hi, Hj.
  pose proof (wf_map_complete _ Hwf _ _ Hp) as Hmp.
  pose proof (wf_map_complete _ Hwf _ _ Hq) as Hmq.
  congruence.
Qed.

(** ** Renderings by [toFixed(5)] *)

Lemma chars_app (a b : string) : chars (a +:+ b) = chars a ++ chars b.
Proof.
  induction a as [|c a IH]; [done|].
  change (String c a +:+ b) with (String c (a +:+ b)). simpl. by rewrite IH.
Qed.

Lemma plain_String (c : ascii) (s : string) :
  plain_char c → plain s → plain (String c s).
Proof. intros Hc Hs. by constructor. Qed.

Lemma plain_app (a b : string) : plain a → plain b → plain (a +:+ b).
Proof. unfold plain. rewrite chars_app. apply Forall_app_2. Qed.

Lemma plain_substring (s : string) (n m : nat) :
  plain s → plain (String.substring n m s).
Proof.
  unfold plain. revert n m. induction s as [|c s IH]; intros n m Hs.
  - by destruct n, m.
  - apply Forall_cons in Hs as [Hc Hs].
    destruct n as [|n], m as [|m]; simpl; try by (apply IH || constructor).
    constructor; [done|]. by apply IH.
Qed.

Lemma plain_uint (d : Decimal.uint) : plain (NilEmpty.string_of_uint d).
Proof.
  unfold plain.
  induction d; simpl; [constructor|..];
    (constructor; [by split|done]).
Qed.

Lemma plain_digits (n : Z) : plain (digits n).
Proof.
  unfold digits, NilZero.string_of_uint.
  destruct (N.to_uint (Z.to_N n)); try apply plain_uint.
  unfold plain. simpl. by repeat constructor.
Qed.

Lemma plain_zeros (k : nat) : plain (zeros k).
Proof.
  unfold plain. induction k as [|k IH]; simpl; constructor; [by split|done].
Qed.

Lemma plain_fixed_point (n : Z) : plain (fixed_point n).
Proof.
  unfold fixed_point.
  assert (plain (if (String.length (digits n) <=? 5)%nat
                 then zeros (6 - String.length (digits n)) +:+ digits n
                 else digits n)) as Hm.
  { destruct (_ <=? _)%nat; [apply plain_app|];
      auto using plain_zeros, plain_digits. }
  repeat apply plain_app; try by apply plain_substring.
  unfold plain. simpl. by repeat constructor.
Qed.

Lemma plain_exponent_form (s n : Z) : plain (exponent_form s n).
Proof.
  unfold exponent_form.
  pose proof (plain_digits s) as Hs. pose proof (plain_digits (n - 1)) as Hc.
  destruct (digits s) as [|a rest]; [constructor|].
  unfold plain in Hs. simpl in Hs. apply Forall_cons in Hs as [Ha Hrest].
  assert (plain "e+") as He by (unfold plain; simpl; by repeat constructor).
  assert (plain ".") as Hd by (unfold plain; simpl; by repeat constructor).
  destruct rest as [|b rest].
  - apply plain_String; [done|]. by apply plain_app.
  - apply plain_String; [done|].
    apply plain_app; [done|]. apply plain_app; [done|].
    by apply plain_app.
Qed.

Lemma plain_magnitude5 (m : positive) (e : Z) : plain (magnitude5 m e).
Proof.
  unfold magnitude5, toString_large.
  repeat case_match; auto using plain_exponent_form, plain_fixed_point.
Qed.

Lemma toFixed5_finite (x : float) (s : bool) (m : positive) (e : Z) :
  Prim2SF x = S754_finite s m e →
  toFixed5 x = (if s then "-" else "") +:+ magnitude5 m e.
Proof. unfold toFixed5. by intros ->. Qed.

Lemma plain_comma_free (s : string) : plain s → comma_free s.
Proof. intros Hs. eapply Forall_impl; [exact Hs|]. by intros c [Hc _]. Qed.

Lemma toFixed5_comma_free (x : float) : comma_free (toFixed5 x).
Proof.
  unfold toFixed5. destruct (Prim2SF x) as [s|s| |s m e].
  - vm_compute. by repeat constructor.
  - destruct s; vm_compute; by repeat constructor.
  - vm_compute. by repeat constructor.
  - unfold comma_free. rewrite chars_app. apply Forall_app. split.
    + destruct s; by repeat constructor.
    + apply plain_comma_free, plain_magnitude5.
Qed.

(** A string is cut at its first comma in one way only. *)
Lemma comma_split (a a' r r' : string) :
  comma_free a → comma_free a' →
  a +:+ String ","%char r = a' +:+ String ","%char r' →
  a = a' ∧ r = r'.
Proof.
  unfold comma_free. revert a'.
  induction a as [|c a IH]; intros [|c' a'] Ha Ha'; simpl in Ha, Ha'.
  - by intros [= ->].
  - apply Forall_cons in Ha' as [Hc' _].
    change (String c' a' +:+ ?x) with (String c' (a' +:+ x)).
    by intros [= <-].
  - apply Forall_cons in Ha as [Hc _].
    change (String c a +:+ ?x) with (String c (a +:+ x)).
    by intros [= ->].
  - apply Forall_cons in Ha as [_ Ha]. apply Forall_cons in Ha' as [_ Ha'].
    change (String ?d ?b +:+ ?x) with (String d (b +:+ x)).
    intros [= -> Heq]. destruct (IH a' Ha Ha' Heq) as [-> ->]. done.
Qed.

Lemma vertex_key_inj (p q : Vector3) :
  vertex_key p = vertex_key q → key3 p = key3 q.
Proof.
  unfold vertex_key, key3. intros Heq.
  apply comma_split in Heq as [-> Heq]; try apply toFixed5_comma_free.
  apply comma_split in Heq as [-> ->]; try apply toFixed5_comma_free.
  done.
Qed.

Lemma distinct_keys_key3 (c : list Vector3) :
  NoDup (key3 <$> c) → distinct_keys c.
Proof.
  unfold distinct_keys. intros Hnd. apply NoDup_alt. intros i j k Hi Hj.
  rewrite list_lookup_fmap in Hi, Hj.
  destruct (c !! i) as [p|] eqn:Hp; [|done].
  destruct (c !! j) as [q|] eqn:Hq; [|done].
  simpl in Hi, Hj.
  apply (NoDup_lookup _ i j (key3 p) Hnd).
  - by rewrite list_lookup_fmap, Hp.
  - rewrite list_lookup_fmap, Hq. simpl. f_equal. symmetry.
    apply vertex_key_inj. congruence.
Qed.

(** ** Signs *)

Lemma Prim2SF_zero_add (x : float) (s : bool) (m : positive) (e : Z) :
  Prim2SF x = S754_finite s m e →
  Prim2SF (0 + x) = S754_finite s m e.
Proof. intros Hx. by rewrite add_spec, Hx. Qed.

Lemma Prim2SF_zero_sub (x : float) (s : bool) (m : positive) (e : Z) :
  Prim2SF x = S754_finite s m e →
  Prim2SF (0 - x) = S754_finite (negb s) m e.
Proof. intros Hx. by rewrite sub_spec, Hx. Qed.

Lemma Prim2SF_opp (x : float) (s : bool) (m : positive) (e : Z) :
  Prim2SF x = S754_finite s m e →
  Prim2SF (- x) = S754_finite (negb s) m e.
Proof. intros Hx. by rewrite opp_spec, Hx. Qed.

Lemma positive_finite_inv (x : float) :
  positive_finite x = true → ∃ m e, Prim2SF x = S754_finite false m e.
Proof.
  unfold positive_finite. destruct (Prim2SF x) as [| | |[] m e]; try done.
  by exists m, e.
Qed.

Lemma plain_not_negative (a b : string) : plain a → a ≠ "-" +:+ b.
Proof.
  intros Ha Heq. destruct a as [|c a]; [done|].
  apply Forall_cons in Ha as [[_ Hc] _].
  change ("-" +:+ b) with (String "-"%char b) in Heq. congruence.
Qed.

(** ** Level 0: when the corners of the first cell stay apart *)

Ltac solve_NoDup_triples :=
  repeat (apply NoDup_cons_2;
          [rewrite ?elem_of_cons, elem_of_nil; intuition congruence|]);
  apply NoDup_nil_2.

Lemma tetra_corners_distinct (size : float) :
  positive_finite size = true →
  distinct_keys [ mkVector3 size size size;
                  mkVector3 size (- size) (- size);
                  mkVector3 (- size) size (- size);
                  mkVector3 (- size) (- size) size ].
Proof.
  intros (m & e & Hs)%positive_finite_inv.
  apply distinct_keys_key3. unfold key3. simpl.
  rewrite (toFixed5_finite _ _ _ _ Hs).
  rewrite (toFixed5_finite _ _ _ _ (Prim2SF_opp _ _ _ _ Hs)). simpl negb.
  change ("" +:+ magnitude5 m e) with (magnitude5 m e).
  pose proof (plain_not_negative _ (magnitude5 m e) (plain_magnitude5 m e)) as Hne.
  set (M := magnitude5 m e) in *. set (N := "-" +:+ M) in *.
  solve_NoDup_triples.
Qed.

Lemma cube_corners_distinct (halfSide : float) :
  positive_finite halfSide = true →
  distinct_keys (cube_corners (mkVector3 0 0 0) halfSide).
Proof.
  intros (m & e & Hs)%positive_finite_inv.
  apply distinct_keys_key3. unfold key3, cube_corners. simpl.
  rewrite (toFixed5_finite _ _ _ _ (Prim2SF_zero_add _ _ _ _ Hs)).
  rewrite (toFixed5_finite _ _ _ _ (Prim2SF_zero_sub _ _ _ _ Hs)). simpl negb.
  change ("" +:+ magnitude5 m e) with (magnitude5 m e).
  pose proof (plain_not_negative _ (magnitude5 m e) (plain_magnitude5 m e)) as Hne.
  set (M := magnitude5 m e) in *. set (N := "-" +:+ M) in *.
  solve_NoDup_triples.
Qed.

Lemma octa_points_distinct (scale : float) :
  positive_finite scale = true →
  toFixed5 scale ≠ "0.00000" →
  distinct_keys (octa_points (mkVector3 0 0 0) scale).
Proof.
  intros (m & e & Hs)%positive_finite_inv Hz.
  rewrite (toFixed5_finite _ _ _ _ Hs) in Hz.
  apply distinct_keys_key3. unfold key3, octa_points. simpl.
  rewrite (toFixed5_finite _ _ _ _ (Prim2SF_zero_add _ _ _ _ Hs)).
  rewrite (toFixed5_finite _ _ _ _ (Prim2SF_zero_sub _ _ _ _ Hs)). simpl negb.
  change ("" +:+ magnitude5 m e) with (magnitude5 m e) in *.
  change (toFixed5 0) with "0.00000".
  pose proof (plain_not_negative _ (magnitude5 m e) (plain_magnitude5 m e)) as Hne.
  assert ("0.00000" ≠ "-" +:+ magnitude5 m e) as Hzn by done.
  set (M := magnitude5 m e) in *. set (N := "-" +:+ M) in *.
  solve_NoDup_triples.
Qed.

Lemma weld_cell_fresh (corners : list Vector3) (t : table) :
  distinct_keys corners →
  allExportVertices (exec (weld_cell corners t) empty_store) = corners.
Proof.
  intros Hnd.
  destruct (mapG_addUniqueVertex_fresh corners empty_store Hnd)
    as (st' & Hrun & Hp & _).
  { apply Forall_forall. intros v _. apply lookup_empty. }
  assert (exec (weld_cell corners t) empty_store =
          exec (forG (pick (seq 0 (length corners)) t) push_face) st') as ->.
  { unfold weld_cell, exec, mbind, gen_bind. by rewrite Hrun. }
  by rewrite exec_forG_push_face.
Qed.

(** The number of points stored for the first cell is the number of
    different keys among its corners. *)
Lemma weld_cell_length (corners : list Vector3) (t : table) :
  length (allExportVertices (exec (weld_cell corners t) empty_store)) =
  length (remove_dups (vertex_key <$> corners)).
Proof.
  destruct (mapG addUniqueVertex corners empty_store) as [idx st1] eqn:Hrun.
  destruct (mapG_addUniqueVertex_wf _ _ _ _ empty_store_wf Hrun)
    as (Hwf1 & _ & Hall & _).
  pose proof (mapG_addUniqueVertex_points _ _ _ _ Hrun) as Hpts.
  assert (exec (weld_cell corners t) empty_store =
          exec (forG (pick idx t) push_face) st1) as ->.
  { unfold weld_cell, exec, mbind, gen_bind. by rewrite Hrun. }
  rewrite exec_forG_push_face. simpl.
  rewrite <- (length_fmap vertex_key (allExportVertices st1)).
  apply Permutation_length, NoDup_Permutation.
  - by apply store_wf_keys_NoDup.
  - apply NoDup_remove_dups.
  - intros k. rewrite elem_of_remove_dups, !list_elem_of_fmap. split.
    + intros (p & -> & Hp). exists p. split; [done|].
      destruct (Hpts p Hp) as [Hnil|Hin]; [|done]. by apply elem_of_nil in Hnil.
    + intros (v & -> & Hv).
      apply list_elem_of_lookup in Hv as [a Ha].
      destruct (Forall2_lookup_l _ _ _ _ _ Hall Ha) as (i & _ & Hm).
      destruct (wf_map_sound _ Hwf1 _ _ Hm) as (p & Hp & Hk).
      exists p. split; [done|]. by eapply list_elem_of_lookup_2.
Qed.

(** A size that renders as 0.00000 leaves the octahedron four points:
    the +y, +x and +z corners share one key. *)
Lemma octa_points_welded (scale : float) :
  positive_finite scale = true →
  toFixed5 scale = "0.00000" →
  length (allExportVertices
    (exec (weld_cell (octa_points (mkVector3 0 0 0) scale) octa_table)
          empty_store)) = 4%nat.
Proof.
  intros (m & e & Hs)%positive_finite_inv Hz.
  rewrite (toFixed5_finite _ _ _ _ Hs) in Hz.
  change ("" +:+ magnitude5 m e) with (magnitude5 m e) in Hz.
  rewrite weld_cell_length. unfold octa_points, vertex_key.
  cbn [fmap list_fmap x y z].
  rewrite (toFixed5_finite _ _ _ _ (Prim2SF_zero_add _ _ _ _ Hs)).
  rewrite (toFixed5_finite _ _ _ _ (Prim2SF_zero_sub _ _ _ _ Hs)).
  cbn [negb]. rewrite Hz. by vm_compute.
Qed.

(** ** Halving a binary64 number

    Multiplying by 0.5 and dividing by 2 are the same operation on
    every binary64 number, and the half of a positive finite number is
    positive and finite, except for the smallest one, 2^-1074, whose
    half rounds to 0. *)

Lemma valid_cases (m : positive) (e : Z) :
  bounded prec emax m e = true ->
  (Z.pos (digits2_pos m) = 53 /\ -1074 <= e <= 971) \/
  (Z.pos (digits2_pos m) < 53 /\ e = -1074).
Proof.
  unfold bounded, canonical_mantissa, fexp, emin, prec, emax.
  intros H. apply andb_prop in H as [H1 H2].
  apply Z.eqb_eq in H1. apply Z.leb_le in H2. lia.
Qed.

Lemma div_eucl_pair (a b : Z) : Z.div_eucl a b = (a / b, a mod b).
Proof. unfold Z.div, Z.modulo. now destruct (Z.div_eucl a b). Qed.

Lemma digits_shift52 (m : positive) :
  Z.pos (digits2_pos (m * two52)) = Z.pos (digits2_pos m) + 52.
Proof.
  rewrite Pos.mul_comm.
  change (digits2_pos (two52 * m))
    with (Pos.iter Pos.succ (digits2_pos m) 52).
  cbv beta iota delta [Pos.iter]. rewrite !Pos2Z.inj_succ. lia.
Qed.

Lemma iter52 (m : positive) :
  SpecFloat.iter_pos shr_1 52 (Build_shr_record (Z.pos (m * two52)) false false) =
  Build_shr_record (Z.pos m) false false.
Proof. rewrite Pos.mul_comm. reflexivity. Qed.

Lemma iter53 (m : positive) :
  SpecFloat.iter_pos shr_1 53 (Build_shr_record (Z.pos (m * two52)) false false) =
  shr_1 (Build_shr_record (Z.pos m) false false).
Proof. rewrite Pos.mul_comm. reflexivity. Qed.

(** First shift of the product by one half. *)
Lemma shr_mul_half (m : positive) (e : Z) :
  bounded prec emax m e = true ->
  shr_fexp prec emax (Z.pos (m * two52)) (e + -53) loc_Exact =
  if -1073 <=? e then (Build_shr_record (Z.pos m) false false, e - 1)
  else (shr_1 (Build_shr_record (Z.pos m) false false), -1074).
Proof.
  intros Hv. apply valid_cases in Hv.
  unfold shr_fexp. unfold Zdigits2. rewrite digits_shift52.
  cbn [shr_record_of_loc].
  destruct (Z.leb_spec (-1073) e) as [He|He].
  - replace (fexp prec emax (Z.pos (digits2_pos m) + 52 + (e + -53)) - (e + -53))
      with 52 by (unfold fexp, emin, prec, emax; lia).
    unfold shr. rewrite iter52. f_equal. lia.
  - replace (fexp prec emax (Z.pos (digits2_pos m) + 52 + (e + -53)) - (e + -53))
      with 53 by (unfold fexp, emin, prec, emax; lia).
    unfold shr. rewrite iter53. f_equal. lia.
Qed.

Lemma div_core_two (m : positive) (e : Z) :
  bounded prec emax m e = true ->
  SFdiv_core_binary prec emax (Z.pos m) e (Z.pos two52) (-51) =
  if -1072 <=? e then (Z.pos (xO m), e - 2, loc_Exact)
  else if -1073 <=? e then (Z.pos m, -1074, loc_Exact)
  else (Z.pos m / 2, -1074,
        if Z.even (Z.pos m) then loc_Exact else loc_Inexact Eq).
Proof.
  intros Hv. apply valid_cases in Hv.
  unfold SFdiv_core_binary. rewrite div_eucl_pair.
  change (Zdigits2 (Z.pos two52)) with 53.
  change (Zdigits2 (Z.pos m)) with (Z.pos (digits2_pos m)).
  destruct (Z.leb_spec (-1072) e) as [He|He];
    [|destruct (Z.leb_spec (-1073) e) as [He'|He']].
  - replace (Z.min (fexp prec emax (Z.pos (digits2_pos m) + e - (53 + -51))) (e - -51))
      with (e - 2) by (unfold fexp, emin, prec, emax; lia).
    replace (e - -51 - (e - 2)) with 53 by lia.
    change (Z.shiftl (Z.pos m) 53) with (Z.pos (Pos.iter xO m 53)).
    assert (Z.pos (Pos.iter xO m 53) = Z.pos (xO m) * Z.pos two52) as ->.
    { cbv beta iota delta [Pos.iter]. unfold two52. lia. }
    rewrite Z.div_mul, Z.mod_mul by discriminate.
    reflexivity.
  - replace (Z.min (fexp prec emax (Z.pos (digits2_pos m) + e - (53 + -51))) (e - -51))
      with (-1074) by (unfold fexp, emin, prec, emax; lia).
    replace (e - -51 - -1074) with 52 by lia.
    change (Z.shiftl (Z.pos m) 52) with (Z.pos (Pos.iter xO m 52)).
    assert (Z.pos (Pos.iter xO m 52) = Z.pos m * Z.pos two52) as ->.
    { cbv beta iota delta [Pos.iter]. unfold two52. lia. }
    rewrite Z.div_mul, Z.mod_mul by discriminate.
    reflexivity.
  - replace (Z.min (fexp prec emax (Z.pos (digits2_pos m) + e - (53 + -51))) (e - -51))
      with (-1074) by (unfold fexp, emin, prec, emax; lia).
    replace (e - -51 - -1074) with 51 by lia.
    change (Z.shiftl (Z.pos m) 51) with (Z.pos (Pos.iter xO m 51)).
    destruct m as [p|p|].
    + assert (Z.pos (Pos.iter xO (xI p) 51) = Z.pos p * Z.pos two52 + 2251799813685248) as ->.
      { cbv beta iota delta [Pos.iter]. unfold two52. lia. }
      rewrite <- (Z.div_unique _ (Z.pos two52) (Z.pos p) 2251799813685248)
        by (unfold two52; lia).
      rewrite <- (Z.mod_unique _ (Z.pos two52) (Z.pos p) 2251799813685248)
        by (unfold two52; lia).
      replace (Z.pos (xI p) / 2) with (Z.pos p).
      2:{ apply (Z.div_unique _ _ _ 1); lia. }
      reflexivity.
    + assert (Z.pos (Pos.iter xO (xO p) 51) = Z.pos p * Z.pos two52) as ->.
      { cbv beta iota delta [Pos.iter]. unfold two52. lia. }
      rewrite Z.div_mul, Z.mod_mul by discriminate.
      replace (Z.pos (xO p) / 2) with (Z.pos p).
      2:{ apply (Z.div_unique _ _ _ 0); lia. }
      reflexivity.
    + reflexivity.
Qed.

Lemma digits_tail (p : positive) (b : bool) :
  Z.pos (digits2_pos (if b then xI p else xO p)) = Z.pos (digits2_pos p) + 1.
Proof. destruct b; cbn [digits2_pos]; lia. Qed.

(** First shift of the quotient by two. *)
Lemma shr_div_two (m : positive) (e : Z) :
  bounded prec emax m e = true ->
  (let '(mz, ez, lz) := SFdiv_core_binary prec emax (Z.pos m) e (Z.pos two52) (-51) in
   shr_fexp prec emax mz ez lz) =
  if -1073 <=? e then (Build_shr_record (Z.pos m) false false, e - 1)
  else (shr_1 (Build_shr_record (Z.pos m) false false), -1074).
Proof.
  intros Hv. rewrite (div_core_two m e Hv). apply valid_cases in Hv.
  destruct (Z.leb_spec (-1072) e) as [He|He];
    [|destruct (Z.leb_spec (-1073) e) as [He'|He']].
  - destruct (Z.leb_spec (-1073) e) as [_|?]; [|lia].
    unfold shr_fexp. cbn [Zdigits2 digits2_pos shr_record_of_loc].
    replace (fexp prec emax (Z.pos (Pos.succ (digits2_pos m)) + (e - 2)) - (e - 2))
      with 1 by (unfold fexp, emin, prec, emax; lia).
    cbn [shr SpecFloat.iter_pos shr_1 orb]. f_equal. lia.
  - unfold shr_fexp. cbn [Zdigits2 shr_record_of_loc].
    replace (fexp prec emax (Z.pos (digits2_pos m) + -1074) - -1074)
      with 0 by (unfold fexp, emin, prec, emax; lia).
    cbn [shr]. f_equal. lia.
  - unfold shr_fexp. destruct m as [p|p|].
    + replace (Z.pos (xI p) / 2) with (Z.pos p).
      2:{ apply (Z.div_unique _ _ _ 1); lia. }
      cbn [Z.even Zdigits2 shr_record_of_loc].
      replace (fexp prec emax (Z.pos (digits2_pos p) + -1074) - -1074)
        with 0 by (pose proof (digits_tail p true); cbn iota in *;
                   unfold fexp, emin, prec, emax; lia).
      reflexivity.
    + replace (Z.pos (xO p) / 2) with (Z.pos p).
      2:{ apply (Z.div_unique _ _ _ 0); lia. }
      cbn [Z.even Zdigits2 shr_record_of_loc].
      replace (fexp prec emax (Z.pos (digits2_pos p) + -1074) - -1074)
        with 0 by (pose proof (digits_tail p false); cbn iota in *;
                   unfold fexp, emin, prec, emax; lia).
      reflexivity.
    + reflexivity.
Qed.

Lemma SFmul_half_SFdiv_two (x : spec_float) :
  valid_binary x = true ->
  SF64mul x (S754_finite false two52 (-53)) =
  SF64div x (S754_finite false two52 (-51)).
Proof.
  destruct x as [s|s| |s m e]; try reflexivity.
  intros Hv. unfold SF64mul, SF64div, SFmul, SFdiv.
  change (bounded prec emax m e = true) in Hv.
  pose proof (shr_div_two m e Hv) as Hd.
  destruct (SFdiv_core_binary prec emax (Z.pos m) e (Z.pos two52) (-51))
    as [[mz ez] lz].
  unfold binary_round_aux.
  rewrite Hd, <- (shr_mul_half m e Hv). reflexivity.
Qed.

Lemma mul_half_div_two (x : float) : (x * 0.5 = x / 2)%float.
Proof.
  apply Prim2SF_inj. rewrite mul_spec, div_spec.
  apply SFmul_half_SFdiv_two, Prim2SF_valid.
Qed.

Lemma digits_succ (p : positive) :
  Z.pos (digits2_pos (Pos.succ p)) <= Z.pos (digits2_pos p) + 1.
Proof.
  induction p as [p IH|p IH|].
  - change (Pos.succ (xI p)) with (xO (Pos.succ p)). cbn [digits2_pos]. lia.
  - change (Pos.succ (xO p)) with (xI p). cbn [digits2_pos]. lia.
  - done.
Qed.

(** Half of a positive finite number other than 2^-1074 is positive and
    finite. *)
Lemma SFdiv_two_finite (m : positive) (e : Z) :
  bounded prec emax m e = true ->
  (m <> 1%positive \/ e <> -1074) ->
  exists m' e', SF64div (S754_finite false m e) (S754_finite false two52 (-51)) =
                S754_finite false m' e'.
Proof.
  intros Hv Hne. unfold SF64div, SFdiv.
  pose proof (shr_div_two m e Hv) as Hd.
  destruct (SFdiv_core_binary prec emax (Z.pos m) e (Z.pos two52) (-51))
    as [[mz ez] lz].
  unfold binary_round_aux. rewrite Hd. clear Hd.
  apply valid_cases in Hv.
  destruct (Z.leb_spec (-1073) e) as [He|He].
  - cbn [shr_m loc_of_shr_record round_nearest_even].
    unfold shr_fexp. cbn [Zdigits2 shr_record_of_loc].
    replace (fexp prec emax (Z.pos (digits2_pos m) + (e - 1)) - (e - 1))
      with 0 by (unfold fexp, emin, prec, emax; lia).
    cbn [shr shr_m xorb].
    destruct (Z.leb_spec (e - 1) (emax - prec)) as [_|Hgt];
      [eauto|unfold emax, prec in Hgt; lia].
  - assert (e = -1074) as -> by lia.
    destruct m as [p|p|]; [| |lia].
    + cbn [shr_1 shr_m loc_of_shr_record round_nearest_even orb].
      assert (exists q, (if Z.even (Z.pos p) then Z.pos p else Z.pos p + 1) = Z.pos q
                /\ Z.pos (digits2_pos q) <= Z.pos (digits2_pos p) + 1) as (q & -> & Hq).
      { destruct (Z.even (Z.pos p)).
        - exists p. split; [reflexivity|lia].
        - exists (Pos.succ p). split; [lia|apply digits_succ]. }
      unfold shr_fexp. cbn [Zdigits2 shr_record_of_loc].
      replace (fexp prec emax (Z.pos (digits2_pos q) + -1074) - -1074)
        with 0 by (pose proof (digits_tail p true); cbn iota in *;
                   unfold fexp, emin, prec, emax; lia).
      cbn [shr shr_m xorb].
      change (-1074 <=? emax - prec) with true. cbn iota. eauto.
    + cbn [shr_1 shr_m loc_of_shr_record round_nearest_even orb].
      unfold shr_fexp. cbn [Zdigits2 shr_record_of_loc].
      replace (fexp prec emax (Z.pos (digits2_pos p) + -1074) - -1074)
        with 0 by (pose proof (digits_tail p false); cbn iota in *;
                   unfold fexp, emin, prec, emax; lia).
      cbn [shr shr_m xorb].
      change (-1074 <=? emax - prec) with true. cbn iota. eauto.
Qed.

Lemma half_positive_finite (x : float) :
  positive_finite x = true →
  x ≠ 0x1p-1074%float →
  positive_finite (x / 2) = true.
Proof.
  intros (m & e & Hx)%positive_finite_inv Hne.
  pose proof (Prim2SF_valid x) as Hv. rewrite Hx in Hv.
  change (bounded prec emax m e = true) in Hv.
  destruct (SFdiv_two_finite m e Hv) as (m' & e' & Hdiv).
  { destruct (decide (m = 1%positive)) as [->|]; [|by left].
    destruct (decide (e = -1074)) as [->|]; [|by right].
    destruct Hne. by apply Prim2SF_inj. }
  unfold positive_finite. rewrite div_spec, Hx.
  change (Prim2SF 2) with (S754_finite false two52 (-51)).
  by rewrite Hdiv.
Qed.

(** ** Each recursion as one loop over its cells *)

Lemma exec_forG_ext {A} (xs : list A) (f g : A → Gen unit) (st : Store) :
  (∀ x st, exec (f x) st = exec (g x) st) →
  exec (forG xs f) st = exec (forG xs g) st.
Proof.
  intros Hfg. revert st. induction xs as [|x xs IH]; intros st; [done|].
  by rewrite !exec_forG_cons, Hfg, IH.
Qed.

Lemma exec_forG_bind {A B} (xs : list A) (Lf : A → list B)
    (g : B → Gen unit) (st : Store) :
  exec (forG (xs ≫= Lf) g) st = exec (forG xs (λ x, forG (Lf x) g)) st.
Proof.
  revert st. induction xs as [|x xs IH]; intros st; [done|].
  by rewrite bind_cons, exec_forG_app, exec_forG_cons, IH.
Qed.

Lemma exec_weld_all_app (L1 L2 : list cell) (t : table) (st : Store) :
  exec (weld_all (L1 ++ L2) t) st = exec (weld_all L2 t) (exec (weld_all L1 t) st).
Proof. apply exec_forG_app. Qed.

Lemma subdivideTetrahedron_fold (level : nat) (p1 p2 p3 p4 : Vector3) (st : Store) :
  exec (subdivideTetrahedron level p1 p2 p3 p4) st =
  exec (weld_all (tetra_cells level p1 p2 p3 p4) tetra_table) st.
Proof.
  revert p1 p2 p3 p4 st.
  induction level as [|level IH]; intros p1 p2 p3 p4 st.
  - rewrite exec_subdivideTetrahedron_base. unfold weld_all.
    cbn [tetra_cells]. by rewrite exec_forG_cons, exec_forG_nil.
  - cbn [subdivideTetrahedron tetra_cells].
    rewrite !exec_seq, !exec_weld_all_app. by rewrite !IH.
Qed.

Lemma subdivideCube_fold (level : nat) (center : Vector3) (sideLength : float)
    (st : Store) :
  exec (subdivideCube level center sideLength) st =
  exec (weld_all (cube_cells level center sideLength) cube_table) st.
Proof.
  revert center sideLength st.
  induction level as [|level IH]; intros center sideLength st.
  - unfold weld_all. cbn [cube_cells].
    by rewrite exec_forG_cons, exec_forG_nil.
  - unfold exec at 1. rewrite subdivideCube_step.
    fold (exec (forG kept_grid (λ '(i, j, k),
      subdivideCube level
        (sub_cube_center center (sideLength / 3)%float i j k)
        (sideLength / 3)%float)) st).
    change (cube_cells (S level) center sideLength) with
      (kept_grid ≫= λ '(i, j, k),
         cube_cells level
           (sub_cube_center center (sideLength / 3)%float i j k)
           (sideLength / 3)%float).
    unfold weld_all. rewrite exec_forG_bind.
    apply exec_forG_ext. intros [[i j] k] st'. apply IH.
Qed.

Lemma subdivideOctahedron_fold (level : nat) (center : Vector3) (scale : float)
    (st : Store) :
  exec (subdivideOctahedron level center scale) st =
  exec (weld_all (octa_cells level center scale) octa_table) st.
Proof.
  revert center scale st.
  induction level as [|level IH]; intros center scale st.
  - unfold weld_all. cbn [octa_cells].
    by rewrite exec_forG_cons, exec_forG_nil.
  - change (octa_cells (S level) center scale) with
      (octa_points center (scale * 0.5)%float ≫= λ c,
         octa_cells level c (scale * 0.5)%float).
    change (subdivideOctahedron (S level) center scale) with
      (forG (octa_points center (scale * 0.5)%float) (λ c,
         subdivideOctahedron level c (scale * 0.5)%float)).
    unfold weld_all. rewrite exec_forG_bind.
    apply exec_forG_ext. intros c st'. apply IH.
Qed.

Lemma start_fold (kind : FractalType) (level : nat) (size : float) (st : Store) :
  exec (start kind level size) st =
  exec (weld_all (cells kind level size) (table_of kind)) st.
Proof.
  destruct kind.
  - apply subdivideTetrahedron_fold.
  - apply subdivideCube_fold.
  - apply subdivideOctahedron_fold.
Qed.

(** * The claims *)

(** C1. One call of [addUniqueVertex] on a point [p].  The key of [p]
    joins the three coordinates rendered with five decimals.  If the
    key is in the map, the call returns the index recorded for it and
    changes nothing.  Otherwise it returns the former length of the
    point list, appends [p] itself to the points and its three
    coordinates to the flat vertex buffer, and records the key with
    that index; indices and faces are left alone. *)
Theorem addUniqueVertex_weld (p : Vector3) (st : Store) :
  vertex_key p =
    toFixed5 (x p) +:+ "," +:+ toFixed5 (y p) +:+ "," +:+ toFixed5 (z p) ∧
  match vertexMap st !! vertex_key p with
  | Some i => addUniqueVertex p st = (i, st)
  | None =>
      ∃ st',
        addUniqueVertex p st = (length (allExportVertices st), st') ∧
        allExportVertices st' = allExportVertices st ++ [p] ∧
        allBufferVertices st' = allBufferVertices st ++ [x p; y p; z p] ∧
        vertexMap st' =
          <[vertex_key p := length (allExportVertices st)]> (vertexMap st) ∧
        allBufferIndices st' = allBufferIndices st ∧
        allExportFaces st' = allExportFaces st
  end.
Proof.
  split; [done|]. unfold addUniqueVertex.
  destruct (vertexMap st !! vertex_key p) as [i|]; [done|].
  eexists. by split_and!.
Qed.

(** C2, as the code has it.  At level 0, for every positive finite
    size: the tetrahedron yields 4 points and 4 faces; the sponge
    yields 8 points and 12 faces exactly when the size is not 2^-1074,
    the smallest positive number, whose half is 0; the octahedron
    yields 6 points and 8 faces exactly when the size does not render
    as 0.00000. *)
Theorem level0_counts (size : float) :
  positive_finite size = true →
  counts (generate SierpinskiTetrahedron 0 size) = (4, 4)%nat ∧
  (counts (generate MengerSponge 0 size) = (8, 12)%nat ↔
   size ≠ 0x1p-1074%float) ∧
  (counts (generate SierpinskiOctahedron 0 size) = (6, 8)%nat ↔
   toFixed5 size ≠ "0.00000").
Proof.
  intros Hs. unfold counts. rewrite !length_faces. split_and!.
  - f_equal. rewrite generate_start. cbn [output_of exportVertices start].
    rewrite exec_subdivideTetrahedron_base.
    apply (f_equal length (weld_cell_fresh _ tetra_table
             (tetra_corners_distinct size Hs))).
  - split.
    + intros Hc ->. vm_compute in Hc. discriminate.
    + intros Hh. f_equal. rewrite generate_start.
      apply (f_equal length (weld_cell_fresh _ cube_table
               (cube_corners_distinct _ (half_positive_finite size Hs Hh)))).
  - split.
    + intros Hc Hz. rewrite generate_start in Hc.
      cbn [output_of exportVertices start] in Hc.
      change (subdivideOctahedron 0 (mkVector3 0 0 0) size)
        with (weld_cell (octa_points (mkVector3 0 0 0) size) octa_table) in Hc.
      rewrite (octa_points_welded size Hs Hz) in Hc. discriminate.
    + intros Hz. f_equal. rewrite generate_start.
      apply (f_equal length (weld_cell_fresh _ octa_table
               (octa_points_distinct size Hs Hz))).
Qed.

Lemma level0_counts_witness :
  counts (generate SierpinskiTetrahedron 0 1) = (4, 4)%nat ∧
  counts (generate MengerSponge 0 1) = (8, 12)%nat ∧
  counts (generate SierpinskiOctahedron 0 1) = (6, 8)%nat.
Proof.
  destruct (level0_counts 1 eq_refl) as (Ht & Hc & Ho).
  split; [exact Ht|]. split; [apply Hc; vm_compute; discriminate|].
  apply Ho. vm_compute. discriminate.
Defined.

(** C2 fails as stated: 2^-20 is a positive finite size, and at level 0
    the octahedron welds its +y, +x and +z corners, which all have the
    key 0.00000,0.00000,0.00000; four points are stored, not six. *)
Lemma level0_counts_counterexample :
  positive_finite 0x1p-20 = true ∧
  counts (generate SierpinskiOctahedron 0 0x1p-20) = (4, 8)%nat ∧
  counts (generate SierpinskiOctahedron 0 0x1p-20) ≠ (6, 8)%nat.
Proof. by vm_compute. Qed.

(** The sponge at the one excluded size: all eight corners are (0,0,0). *)
Example sponge_smallest_size :
  positive_finite 0x1p-1074 = true ∧
  (0x1p-1074 / 2)%float = 0%float ∧
  counts (generate MengerSponge 0 0x1p-1074) = (1, 12)%nat.
Proof. by vm_compute. Qed.

(** C3. For every kind, level and size (so for every positive finite
    size): the flat vertex buffer has three entries per point, the flat
    index buffer has three entries per face, and every index of every
    face is below the number of points. *)
Theorem output_invariants (kind : FractalType) (level : nat) (size : float) :
  let o := generate kind level size in
  length (bufferVertices o) = (3 * length (exportVertices o))%nat ∧
  length (bufferIndices o) = (3 * length (exportFaces o))%nat ∧
  Forall (λ f, (v1 f < length (exportVertices o))%nat ∧
               (v2 f < length (exportVertices o))%nat ∧
               (v3 f < length (exportVertices o))%nat) (exportFaces o).
Proof.
  intros o. subst o. split_and!.
  - rewrite generate_start. simpl.
    rewrite (wf_buffer _ (start_wf kind level size)).
    apply length_concat_coords.
  - rewrite generate_start. simpl.
    rewrite (wf_indices _ (start_wf kind level size)).
    apply length_concat_face_indices.
  - apply faces_in_range.
Qed.

(** C4, as the code has it.  For every kind, level and size, no two
    entries of the output point list have the same quantized key: the
    keys of the points, in order, are without repetition. *)
Theorem output_keys_distinct (kind : FractalType) (level : nat) (size : float) :
  NoDup (vertex_key <$> exportVertices (generate kind level size)).
Proof.
  rewrite generate_start. simpl.
  apply store_wf_keys_NoDup, start_wf.
Qed.

(** C4 fails as stated: at level 0 and size 2^-17 (about 0.0000076) the
    octahedron stores (0, s, 0) and (s, 0, 0) as entries 0 and 2; their
    keys differ (0.00001 against 0.00000) while every coordinate
    differs by less than 10^-5. *)
Lemma weld_tolerance_counterexample :
  positive_finite 0x1p-17 = true ∧
  ∃ p q,
    exportVertices (generate SierpinskiOctahedron 0 0x1p-17) !! 0%nat = Some p ∧
    exportVertices (generate SierpinskiOctahedron 0 0x1p-17) !! 2%nat = Some q ∧
    p = mkVector3 0 0x1p-17 0 ∧ q = mkVector3 0x1p-17 0 0 ∧
    within_weld_tolerance p q = true.
Proof.
  split; [reflexivity|].
  exists (mkVector3 0 0x1p-17 0), (mkVector3 0x1p-17 0 0).
  by vm_compute.
Qed.

(** C5, as the code has it.  For every kind, level and size: when in
    every cell reached at level 0 the corners have pairwise different
    quantized keys, no emitted face has two equal indices. *)
Theorem faces_nondegenerate (kind : FractalType) (level : nat) (size : float) :
  Forall distinct_keys (cells kind level size) →
  Forall face_nondegenerate (exportFaces (generate kind level size)).
Proof.
  intros HL. rewrite generate_start. simpl.
  by apply (run_nondeg _ _ _ _ (start_run_spec kind level size)).
Qed.

Lemma faces_nondegenerate_witness :
  Forall face_nondegenerate (exportFaces (generate MengerSponge 1 3)).
Proof.
  apply (faces_nondegenerate MengerSponge 1 3).
  apply (bool_decide_unpack (Forall distinct_keys (cells MengerSponge 1 3))).
  vm_compute. exact I.
Defined.

(** C5 fails as stated: at level 0 and size 2^-20 the first face of the
    octahedron is (0, 0, 0), since the corners at positions 0, 4 and 2
    of the cell are welded into one vertex. *)
Lemma faces_nondegenerate_counterexample :
  positive_finite 0x1p-20 = true ∧
  exportFaces (generate SierpinskiOctahedron 0 0x1p-20) !! 0%nat =
    Some (mkFace 0 0 0) ∧
  ¬ face_nondegenerate (mkFace 0 0 0).
Proof.
  split_and!; [by vm_compute..|]. by intros [? _].
Qed.

(** C6. The sponge at level 1 and size 3.  The loop body recurses for
    exactly 20 grid indices, those of the 27 of {-1,0,1}^3 with at most
    one zero component; the level-1 call is these 20 calls at level 0, in this
    order, each on the sub-cube centred at the grid index scaled by
    size/3; the output has exactly 240 faces and fewer than 160 points. *)
Theorem sponge_level1_size3 :
  kept_grid =
    [ (-1, -1, -1); (-1, -1, 0); (-1, -1, 1); (-1, 0, -1); (-1, 0, 1);
      (-1, 1, -1); (-1, 1, 0); (-1, 1, 1);
      (0, -1, -1); (0, -1, 1); (0, 1, -1); (0, 1, 1);
      (1, -1, -1); (1, -1, 0); (1, -1, 1); (1, 0, -1); (1, 0, 1);
      (1, 1, -1); (1, 1, 0); (1, 1, 1) ] ∧
  length kept_grid = 20%nat ∧
  kept_grid = filter (λ '(i, j, k), (zeroCount i j k ≤ 1)%nat) grid ∧
  (∀ st,
     subdivideCube 1 (mkVector3 0 0 0) 3 st =
     forG kept_grid (λ '(i, j, k),
       subdivideCube 0 (sub_cube_center (mkVector3 0 0 0) (3 / 3)%float i j k)
                     (3 / 3)%float) st) ∧
  length (exportFaces (generateMengerSponge 1 3)) = 240%nat ∧
  (length (exportVertices (generateMengerSponge 1 3)) < 160)%nat.
Proof.
  split_and!.
  - reflexivity.
  - reflexivity.
  - by vm_compute.
  - intros st. apply subdivideCube_step.
  - apply (length_faces MengerSponge 1 3).
  - assert (length (exportVertices (generateMengerSponge 1 3)) = 64%nat) as ->
      by (by vm_compute).
    lia.
Qed.

(** C7. The octahedron at level 0 and size 1 yields exactly the six
    points (0,1,0), (0,-1,0), (1,0,0), (-1,0,0), (0,0,1), (0,0,-1), in
    this order, and the eight faces of the winding table: four from the
    +y apex (index 0), four from the -y apex (index 1). *)
Theorem octahedron_level0_size1 :
  exportVertices (generateSierpinskiOctahedron 0 1) =
    [ mkVector3 0 1 0; mkVector3 0 (-1) 0; mkVector3 1 0 0;
      mkVector3 (-1) 0 0; mkVector3 0 0 1; mkVector3 0 0 (-1) ] ∧
  exportFaces (generateSierpinskiOctahedron 0 1) =
    [ mkFace 0 4 2; mkFace 0 2 5; mkFace 0 5 3; mkFace 0 3 4;
      mkFace 1 2 4; mkFace 1 5 2; mkFace 1 3 5; mkFace 1 4 3 ].
Proof. split; by vm_compute. Qed.

(** C8. For a level above 0, [subdivideOctahedron] computes
    newScale = scale * 0.5, which is scale / 2, and makes exactly six
    recursive calls, at level - 1 and with the new scale, on the centers
    center ± newScale along y, x and z; each of these is passed as it
    is, the parent center is not added again.  The effect of the call is
    that of welding, in this order, the cells of the six sub-octahedra
    of those centers and that scale; one level above the base these are
    the six octahedra of half the scale around the six centers. *)
Theorem subdivideOctahedron_step
    (level : nat) (center : Vector3) (scale : float) (st : Store) :
  let newScale := (scale * 0.5)%float in
  let centers :=
    [ mkVector3 (x center) (y center + newScale) (z center);
      mkVector3 (x center) (y center - newScale) (z center);
      mkVector3 (x center + newScale) (y center) (z center);
      mkVector3 (x center - newScale) (y center) (z center);
      mkVector3 (x center) (y center) (z center + newScale);
      mkVector3 (x center) (y center) (z center - newScale) ]%float in
  newScale = (scale / 2)%float ∧
  subdivideOctahedron (S level) center scale st =
  (subdivideOctahedron level
     (mkVector3 (x center) (y center + newScale) (z center)) newScale;;
   subdivideOctahedron level
     (mkVector3 (x center) (y center - newScale) (z center)) newScale;;
   subdivideOctahedron level
     (mkVector3 (x center + newScale) (y center) (z center)) newScale;;
   subdivideOctahedron level
     (mkVector3 (x center - newScale) (y center) (z center)) newScale;;
   subdivideOctahedron level
     (mkVector3 (x center) (y center) (z center + newScale)) newScale;;
   subdivideOctahedron level
     (mkVector3 (x center) (y center) (z center - newScale)) newScale) st ∧
  exec (subdivideOctahedron (S level) center scale) st =
  exec (weld_all (c ← centers; octa_cells level c newScale) octa_table) st ∧
  exec (subdivideOctahedron 1 center scale) st =
  exec (forG centers (λ c, weld_cell (octa_points c newScale) octa_table)) st.
Proof.
  intros newScale centers. subst newScale centers.
  split; [apply mul_half_div_two|]. split; [|split].
  - change (subdivideOctahedron (S level) center scale) with
      (forG (octa_points center (scale * 0.5)%float) (λ c,
         subdivideOctahedron level c (scale * 0.5)%float)).
    cbn -[subdivideOctahedron]. unfold mbind, gen_bind, mret, gen_ret.
    repeat (match goal with
            | |- context [subdivideOctahedron level ?c ?s ?t] =>
                lazymatch t with
                | context [subdivideOctahedron] => fail
                | _ => destruct (subdivideOctahedron level c s t) as [[] ?]
                end
            end).
    reflexivity.
  - by rewrite subdivideOctahedron_fold.
  - rewrite subdivideOctahedron_fold.
    change (octa_cells 1 center scale) with
      (octa_points center (scale * 0.5)%float ≫= λ c,
         [octa_points c (scale * 0.5)%float]).
    unfold weld_all. rewrite exec_forG_bind.
    apply exec_forG_ext. intros c st'.
    by rewrite exec_forG_cons, exec_forG_nil.
Qed.

(** C9. Generation is a total function: for every kind, level and size
    it returns an output, and this output has at least one point and at
    least one face. *)
Theorem generation_nonempty (kind : FractalType) (level : nat) (size : float) :
  ∃ o : GenerationOutput,
    generate kind level size = o ∧
    exportVertices o ≠ [] ∧ exportFaces o ≠ [].
Proof.
  exists (generate kind level size). split; [done|].
  pose proof (length_faces kind level size) as Hn.
  assert (0 < length (exportFaces (generate kind level size)))%nat as Hpos.
  { rewrite Hn. apply Nat.mul_pos_pos; [destruct kind; simpl; lia|].
    assert (branching kind ^ level ≠ 0)%nat; [|lia].
    apply Nat.pow_nonzero. by destruct kind. }
  pose proof (faces_in_range kind level size) as Hf.
  destruct (exportFaces (generate kind level size)) as [|f fs] eqn:Hfs;
    [simpl in Hpos; lia|].
  split; [|done].
  apply Forall_cons in Hf as [[Hv _] _].
  intros Hnil. rewrite Hnil in Hv. simpl in Hv. lia.
Qed.

(** C10. For every kind, level and size the flat buffers mirror the
    structured output: the three buffer entries from position 3i on are
    the x, y, z of point i, and the three index entries from position
    3j on are the v1, v2, v3 of face j. *)
Theorem buffers_mirror (kind : FractalType) (level : nat) (size : float) :
  let o := generate kind level size in
  (∀ i p, exportVertices o !! i = Some p →
     bufferVertices o !! (3 * i)%nat = Some (x p) ∧
     bufferVertices o !! (3 * i + 1)%nat = Some (y p) ∧
     bufferVertices o !! (3 * i + 2)%nat = Some (z p)) ∧
  (∀ j f, exportFaces o !! j = Some f →
     bufferIndices o !! (3 * j)%nat = Some (v1 f) ∧
     bufferIndices o !! (3 * j + 1)%nat = Some (v2 f) ∧
     bufferIndices o !! (3 * j + 2)%nat = Some (v3 f)).
Proof.
  intros o. subst o. rewrite generate_start. simpl.
  rewrite (wf_buffer _ (start_wf kind level size)).
  rewrite (wf_indices _ (start_wf kind level size)). split.
  - intros i p. apply lookup_concat_coords.
  - intros j f. apply lookup_concat_face_indices.
Qed.

Lemma buffers_mirror_witness :
  let o := generate SierpinskiOctahedron 0 1 in
  (bufferVertices o !! 6%nat = Some 1%float ∧
   bufferVertices o !! 7%nat = Some 0%float ∧
   bufferVertices o !! 8%nat = Some 0%float) ∧
  (bufferIndices o !! 3%nat = Some 0%nat ∧
   bufferIndices o !! 4%nat = Some 2%nat ∧
   bufferIndices o !! 5%nat = Some 5%nat).
Proof.
  destruct (buffers_mirror SierpinskiOctahedron 0 1) as [Hv Hf].
  split.
  - apply (Hv 2%nat (mkVector3 1 0 0)). reflexivity.
  - apply (Hf 1%nat (mkFace 0 2 5)). reflexivity.
Defined.

(** * Beyond the claims *)

(** ** The map and the point list go together *)

Lemma wf_lookup_iff (st : Store) (k : string) :
  store_wf st →
  is_Some (vertexMap st !! k) ↔ k ∈ vertex_key <$> allExportVertices st.
Proof.
  intros Hwf. rewrite list_elem_of_fmap. split.
  - intros [i Hi]. destruct (wf_map_sound _ Hwf _ _ Hi) as (p & Hp & Hk).
    exists p. split; [done|]. by eapply list_elem_of_lookup_2.
  - intros (p & -> & [i Hi]%list_elem_of_lookup).
    exists i. by apply (wf_map_complete _ Hwf).
Qed.

Lemma find_key_wf (st : Store) (k : string) (i : nat) :
  store_wf st →
  vertexMap st !! k = Some i →
  find_key (allExportVertices st) k = i.
Proof.
  intros Hwf Hi. unfold find_key.
  destruct (wf_map_sound _ Hwf _ _ Hi) as (p & Hp & Hk).
  destruct (list_find (λ q, vertex_key q = k) (allExportVertices st))
    as [[j q]|] eqn:Hfind.
  - apply list_find_Some in Hfind as (Hq & Hkq & _). simpl.
    pose proof (wf_map_complete _ Hwf _ _ Hq) as Hj.
    rewrite Hkq in Hj. congruence.
  - apply list_find_None in Hfind.
    apply list_elem_of_lookup_2 in Hp.
    by destruct (proj1 (Forall_forall _ _) Hfind p Hp).
Qed.

Lemma addUniqueVertex_points (v : Vector3) (st : Store) :
  store_wf st →
  allExportVertices (exec (addUniqueVertex v) st) =
  weld_step (allExportVertices st) v.
Proof.
  intros Hwf. unfold exec, addUniqueVertex, weld_step.
  pose proof (wf_lookup_iff st (vertex_key v) Hwf) as Hiff.
  destruct (vertexMap st !! vertex_key v) as [i|] eqn:Hk; simpl.
  - rewrite decide_True; [done|]. apply Hiff. by eexists.
  - rewrite decide_False; [done|]. intros Hin. apply Hiff in Hin.
    by destruct Hin.
Qed.

Lemma mapG_addUniqueVertex_welded (vs : list Vector3) (st : Store) :
  store_wf st →
  allExportVertices (exec (mapG addUniqueVertex vs) st) =
  welded_onto (allExportVertices st) vs.
Proof.
  revert st. induction vs as [|v vs IH]; intros st Hwf; [done|].
  unfold exec. simpl. unfold mbind, gen_bind.
  destruct (addUniqueVertex v st) as [i st1] eqn:H1.
  destruct (addUniqueVertex_wf _ _ _ _ Hwf H1) as (Hwf1 & _).
  pose proof (addUniqueVertex_points v st Hwf) as Hp.
  unfold exec in Hp. rewrite H1 in Hp. simpl in Hp.
  specialize (IH st1 Hwf1). unfold exec in IH.
  destruct (mapG addUniqueVertex vs st1) as [js st2]. simpl in *.
  by rewrite IH, Hp.
Qed.

Lemma exec_weld_cell (c : list Vector3) (t : table) (st : Store) :
  exec (weld_cell c t) st =
  exec (forG (pick (fst (mapG addUniqueVertex c st)) t) push_face)
       (exec (mapG addUniqueVertex c) st).
Proof.
  unfold weld_cell, exec, mbind, gen_bind.
  by destruct (mapG addUniqueVertex c st).
Qed.

Lemma exec_weld_cell_mapG (c : list Vector3) (t : table) (st stm : Store)
    (idx : list nat) :
  mapG addUniqueVertex c st = (idx, stm) →
  exec (weld_cell c t) st =
  mkStore (allBufferVertices stm)
          (allBufferIndices stm ++ concat ((λ '(a, b, d), [a; b; d]) <$> pick idx t))
          (vertexMap stm)
          (allExportVertices stm)
          (allExportFaces stm ++ ((λ '(a, b, d), mkFace a b d) <$> pick idx t)).
Proof.
  intros Hrun. rewrite exec_weld_cell. unfold exec at 2. rewrite Hrun.
  simpl. apply exec_forG_push_face.
Qed.

Lemma pick_face_of (c : list Vector3) (idx : list nat) (t : table) (st : Store) :
  store_wf st →
  table_ok (length c) t →
  Forall2 (λ v i, vertexMap st !! vertex_key v = Some i) c idx →
  ((λ '(a, b, d), mkFace a b d) <$> pick idx t) =
  (face_of (allExportVertices st) c <$> t).
Proof.
  intros Hwf Ht Hall. unfold pick. rewrite <- list_fmap_compose.
  apply Forall_fmap_ext. eapply Forall_impl; [exact Ht|].
  intros [[a b] d] ((Ha & Hb & Hd) & _). simpl.
  assert (∀ n, (n < length c)%nat →
            at_ idx n = find_key (allExportVertices st) (corner_key c n)) as Hn.
  { intros n Hlt. destruct (at_lookup _ _ _ _ Hall Hlt) as (v & Hv & Hm).
    unfold corner_key. rewrite Hv. simpl. symmetry. by apply find_key_wf. }
  by rewrite !Hn.
Qed.

(** Once the corners of a cell are in the map, later welding does not
    change the faces that the table gives for the cell. *)
Lemma face_of_stable (c : list Vector3) (t : table) (st st' : Store) :
  store_wf st → store_wf st' → store_ext st st' →
  table_ok (length c) t →
  Forall (λ v, is_Some (vertexMap st !! vertex_key v)) c →
  (face_of (allExportVertices st) c <$> t) =
  (face_of (allExportVertices st') c <$> t).
Proof.
  intros Hwf Hwf' Hext Ht Hc.
  apply Forall_fmap_ext. eapply Forall_impl; [exact Ht|].
  intros [[a b] d] ((Ha & Hb & Hd) & _). simpl.
  assert (∀ n, (n < length c)%nat →
            find_key (allExportVertices st) (corner_key c n) =
            find_key (allExportVertices st') (corner_key c n)) as Hn.
  { intros n Hlt. destruct (lookup_lt_is_Some_2 c n Hlt) as [v Hv].
    unfold corner_key. rewrite Hv. simpl.
    destruct (proj1 (Forall_forall _ _) Hc v) as [i Hi];
      [by eapply list_elem_of_lookup_2|].
    rewrite (find_key_wf st _ i Hwf Hi).
    symmetry. apply find_key_wf; [done|].
    eapply lookup_weaken; [exact Hi|]. by destruct Hext. }
  by rewrite !Hn.
Qed.

(** ** One cell, then all of them *)

Lemma weld_cell_spec (c : list Vector3) (t : table) (st : Store) :
  store_wf st →
  table_ok (length c) t →
  store_wf (exec (weld_cell c t) st) ∧
  store_ext st (exec (weld_cell c t) st) ∧
  allExportVertices (exec (weld_cell c t) st) =
    welded_onto (allExportVertices st) c ∧
  allExportFaces (exec (weld_cell c t) st) =
    allExportFaces st ++
    (face_of (allExportVertices (exec (weld_cell c t) st)) c <$> t) ∧
  Forall (λ v, is_Some (vertexMap (exec (weld_cell c t) st) !! vertex_key v)) c.
Proof.
  intros Hwf Ht.
  destruct (respects_cell c t Ht st Hwf) as [Hwf1 Hext1 _ _].
  pose proof (mapG_addUniqueVertex_welded c st Hwf) as Hpts.
  unfold exec in Hpts.
  destruct (mapG addUniqueVertex c st) as [idx stm] eqn:Hrun.
  destruct (mapG_addUniqueVertex_wf _ _ _ _ Hwf Hrun)
    as (Hwfm & _ & Hall & Hfm).
  rewrite (exec_weld_cell_mapG c t st stm idx Hrun) in *. simpl in *.
  split_and!; [done|done|done| |].
  - rewrite Hfm. f_equal. by apply pick_face_of.
  - apply Forall_forall. intros v [a Ha]%list_elem_of_lookup.
    destruct (Forall2_lookup_l _ _ _ _ _ Hall Ha) as (i & _ & Hm).
    by eexists.
Qed.

Lemma weld_all_spec (L : list (list Vector3)) (t : table) (st : Store) :
  store_wf st →
  Forall (λ c, table_ok (length c) t) L →
  store_wf (exec (weld_all L t) st) ∧
  store_ext st (exec (weld_all L t) st) ∧
  allExportVertices (exec (weld_all L t) st) =
    welded_onto (allExportVertices st) (concat L) ∧
  allExportFaces (exec (weld_all L t) st) =
    allExportFaces st ++
    (c ← L; face_of (allExportVertices (exec (weld_all L t) st)) c <$> t) ∧
  Forall (Forall (λ v,
    is_Some (vertexMap (exec (weld_all L t) st) !! vertex_key v))) L.
Proof.
  revert st. induction L as [|c L IH]; intros st Hwf HL.
  - unfold weld_all. rewrite exec_forG_nil. simpl.
    split_and!; try done. by rewrite app_nil_r.
  - apply Forall_cons in HL as [Hc HL].
    unfold weld_all in *. rewrite exec_forG_cons.
    destruct (weld_cell_spec c t st Hwf Hc) as (Hwf1 & Hext1 & Hp1 & Hf1 & Hk1).
    set (st1 := exec (weld_cell c t) st) in *.
    destruct (IH st1 Hwf1 HL) as (Hwf2 & Hext2 & Hp2 & Hf2 & Hk2).
    set (st2 := exec (forG L (λ c0, weld_cell c0 t)) st1) in *.
    split_and!.
    + done.
    + by etrans.
    + rewrite Hp2, Hp1. unfold welded_onto. simpl. by rewrite foldl_app.
    + rewrite Hf2, Hf1, bind_cons, <- app_assoc. do 2 f_equal.
      by apply (face_of_stable c t st1 st2).
    + constructor; [|done].
      eapply Forall_impl; [exact Hk1|]. intros v [i Hi].
      exists i. eapply lookup_weaken; [exact Hi|]. by destruct Hext2.
Qed.

(** ** Every cell has as many corners as its table expects *)

Lemma table_of_ok (kind : FractalType) :
  table_ok (corners_per_cell kind) (table_of kind).
Proof.
  destruct kind; [apply tetra_table_ok|apply cube_table_ok|apply octa_table_ok].
Qed.

Lemma tetra_cells_length (level : nat) (p1 p2 p3 p4 : Vector3) :
  Forall (λ c, length c = 4%nat) (tetra_cells level p1 p2 p3 p4).
Proof.
  revert p1 p2 p3 p4. induction level as [|level IH]; intros.
  - by repeat constructor.
  - cbn [tetra_cells]. rewrite !Forall_app. split_and!; apply IH.
Qed.

Lemma cube_cells_length (level : nat) (center : Vector3) (sideLength : float) :
  Forall (λ c, length c = 8%nat) (cube_cells level center sideLength).
Proof.
  revert center sideLength. induction level as [|level IH]; intros.
  - by repeat constructor.
  - cbn [cube_cells]. apply Forall_bind, Forall_forall.
    intros [[i j] k] _. apply IH.
Qed.

Lemma octa_cells_length (level : nat) (center : Vector3) (scale : float) :
  Forall (λ c, length c = 6%nat) (octa_cells level center scale).
Proof.
  revert center scale. induction level as [|level IH]; intros.
  - by repeat constructor.
  - cbn [octa_cells]. apply Forall_bind, Forall_forall.
    intros c _. apply IH.
Qed.

Lemma cells_length (kind : FractalType) (level : nat) (size : float) :
  Forall (λ c, length c = corners_per_cell kind) (cells kind level size).
Proof.
  destruct kind; simpl.
  - apply tetra_cells_length.
  - apply cube_cells_length.
  - apply octa_cells_length.
Qed.

Lemma cells_table_ok (kind : FractalType) (level : nat) (size : float) :
  Forall (λ c, table_ok (length c) (table_of kind)) (cells kind level size).
Proof.
  eapply Forall_impl; [apply cells_length|].
  intros c ->. apply table_of_ok.
Qed.

(** The store at the end of a generation call. *)
Lemma start_spec (kind : FractalType) (level : nat) (size : float) :
  let st := exec (start kind level size) empty_store in
  store_wf st ∧
  allExportVertices st = welded_onto [] (concat (cells kind level size)) ∧
  allExportFaces st =
    (c ← cells kind level size;
     face_of (allExportVertices st) c <$> table_of kind) ∧
  Forall (Forall (λ v, is_Some (vertexMap st !! vertex_key v)))
         (cells kind level size).
Proof.
  intros st. subst st. rewrite start_fold.
  destruct (weld_all_spec (cells kind level size) (table_of kind) empty_store
              empty_store_wf (cells_table_ok kind level size))
    as (Hwf & _ & Hp & Hf & Hk).
  by split_and!.
Qed.

Lemma generate_is_reference (kind : FractalType) (level : nat) (size : float) :
  generate kind level size =
  reference_mesh (table_of kind) (cells kind level size).
Proof.
  rewrite generate_start.
  destruct (start_spec kind level size) as (Hwf & Hp & Hf & _).
  unfold output_of, reference_mesh.
  rewrite (wf_buffer _ Hwf), (wf_indices _ Hwf).
  rewrite Hf. rewrite Hp. done.
Qed.

(** ** The reference point list *)

Lemma welded_onto_cons (pts : list Vector3) (v : Vector3) (vs : list Vector3) :
  welded_onto pts (v :: vs) = welded_onto (weld_step pts v) vs.
Proof. done. Qed.

Lemma welded_onto_sublist (pts vs : list Vector3) :
  ∃ news, welded_onto pts vs = pts ++ news ∧ news `sublist_of` vs.
Proof.
  revert pts. induction vs as [|v vs IH]; intros pts.
  - exists []. by rewrite app_nil_r.
  - rewrite welded_onto_cons. unfold weld_step. case_decide.
    + destruct (IH pts) as (news & -> & Hsub).
      exists news. split; [done|]. by apply sublist_cons.
    + destruct (IH (pts ++ [v])) as (news & -> & Hsub).
      exists (v :: news). rewrite <- app_assoc. split; [done|].
      by apply sublist_skip.
Qed.

Lemma welded_onto_covers (pts vs : list Vector3) (v : Vector3) :
  v ∈ pts ++ vs →
  vertex_key v ∈ vertex_key <$> welded_onto pts vs.
Proof.
  revert pts. induction vs as [|w vs IH]; intros pts Hv.
  - rewrite app_nil_r in Hv. by apply list_elem_of_fmap_2.
  - rewrite welded_onto_cons. unfold weld_step. case_decide as Hw.
    + apply elem_of_app in Hv as [Hv|Hv];
        [apply IH, elem_of_app; by left|].
      apply elem_of_cons in Hv as [->|Hv];
        [|apply IH, elem_of_app; by right].
      destruct (welded_onto_sublist pts vs) as (news & -> & _).
      rewrite fmap_app. apply elem_of_app. by left.
    + apply IH. rewrite <- app_assoc. simpl. done.
Qed.

Lemma welded_onto_absorb (pts vs : list Vector3) :
  Forall (λ v, vertex_key v ∈ vertex_key <$> pts) vs →
  welded_onto pts vs = pts.
Proof.
  induction 1 as [|v vs Hv _ IH]; [done|].
  rewrite welded_onto_cons. unfold weld_step. by rewrite decide_True.
Qed.

Ltac solve_position :=
  solve [repeat first [apply Exists_cons_hd; lia | apply Exists_cons_tl]].

Lemma table_of_covers (kind : FractalType) :
  table_covers (corners_per_cell kind) (table_of kind).
Proof.
  destruct kind; intros a Ha; simpl in Ha.
  - do 4 (destruct a as [|a]; [solve_position|]). lia.
  - do 8 (destruct a as [|a]; [solve_position|]). lia.
  - do 6 (destruct a as [|a]; [solve_position|]). lia.
Qed.

Lemma find_key_stands_for (st : Store) (c : list Vector3) (a : nat) (v : Vector3) :
  store_wf st →
  c !! a = Some v →
  is_Some (vertexMap st !! vertex_key v) →
  stands_for (allExportVertices st)
             (find_key (allExportVertices st) (corner_key c a)) c a.
Proof.
  intros Hwf Hv [i Hi]. unfold corner_key. rewrite Hv. simpl.
  rewrite (find_key_wf st _ i Hwf Hi).
  destruct (wf_map_sound _ Hwf _ _ Hi) as (p & Hp & Hk).
  by exists p, v.
Qed.

Lemma faces_as_entries (pts : list Vector3) (t : table) (L : list (list Vector3)) :
  (c ← L; face_of pts c <$> t) =
  ((λ ce, face_of pts ce.1 ce.2) <$> cell_entries t L).
Proof.
  unfold cell_entries. induction L as [|c L IH]; [done|].
  rewrite !bind_cons, fmap_app, IH. f_equal.
  by rewrite <- list_fmap_compose.
Qed.

Lemma elem_of_concat {A} (x : A) (L : list (list A)) :
  x ∈ concat L → ∃ c, x ∈ c ∧ c ∈ L.
Proof.
  induction L as [|c L IH]; simpl; [by intros ?%elem_of_nil|].
  intros [Hx|Hx]%elem_of_app.
  - exists c. split; [done|by left].
  - destruct (IH Hx) as (c' & ? & ?). exists c'. split; [done|by right].
Qed.

Lemma length_concat_const {A} (n : nat) (L : list (list A)) :
  Forall (λ c, length c = n) L → length (concat L) = (n * length L)%nat.
Proof.
  induction 1 as [|c L Hc _ IH]; [simpl; lia|].
  cbn [concat length]. rewrite length_app, Hc, IH. lia.
Qed.

Lemma welded_onto_distinct (pts vs : list Vector3) :
  NoDup (vertex_key <$> pts ++ vs) → welded_onto pts vs = pts ++ vs.
Proof.
  revert pts. induction vs as [|v vs IH]; intros pts Hnd.
  - by rewrite app_nil_r.
  - rewrite welded_onto_cons. unfold weld_step.
    rewrite decide_False.
    + rewrite IH; rewrite <- app_assoc; done.
    + rewrite fmap_app, fmap_cons in Hnd.
      apply NoDup_app in Hnd as (_ & Hdisj & _).
      intros Hin. apply (Hdisj _ Hin). by left.
Qed.

Lemma find_key_distinct (c : list Vector3) (a : nat) (v : Vector3) :
  NoDup (vertex_key <$> c) →
  c !! a = Some v →
  find_key c (vertex_key v) = a.
Proof.
  intros Hnd Hv. unfold find_key.
  destruct (list_find (λ q, vertex_key q = vertex_key v) c)
    as [[j q]|] eqn:Hfind.
  - apply list_find_Some in Hfind as (Hq & Hkq & _). simpl.
    apply (NoDup_lookup _ j a (vertex_key v) Hnd).
    + by rewrite list_lookup_fmap, Hq; simpl; rewrite Hkq.
    + by rewrite list_lookup_fmap, Hv.
  - apply list_find_None in Hfind.
    apply list_elem_of_lookup_2 in Hv.
    by destruct (proj1 (Forall_forall _ _) Hfind v Hv).
Qed.

Lemma table_faces_flat (t : table) :
  concat (face_indices <$> ((λ '(a, b, d), mkFace a b d) <$> t)) =
  concat ((λ '(a, b, d), [a; b; d]) <$> t).
Proof.
  rewrite <- list_fmap_compose. f_equal.
  apply list_fmap_ext. by intros _ [[a b] d] _.
Qed.

Lemma level0_cell (kind : FractalType) (size : float) :
  ∃ c, cells kind 0 size = [c] ∧ length c = corners_per_cell kind.
Proof. destruct kind; eexists; split; reflexivity. Qed.

Lemma output_lengths_positive (kind : FractalType) (level : nat) (size : float) :
  (0 < length (exportVertices (generate kind level size)))%nat ∧
  (0 < length (exportFaces (generate kind level size)))%nat.
Proof.
  pose proof (length_faces kind level size) as Hn.
  pose proof (faces_in_range kind level size) as Hf.
  destruct (exportFaces (generate kind level size)) as [|f fs].
  - simpl in Hn. assert (branching kind ^ level ≠ 0)%nat
      by (apply Nat.pow_nonzero; by destruct kind).
    symmetry in Hn. apply Nat.eq_mul_0 in Hn as [Hn|Hn]; [by destruct kind|done].
  - apply Forall_cons in Hf as [[Hv _] _]. simpl. lia.
Qed.

Lemma find_key_eq_iff (st : Store) (k k' : string) :
  store_wf st →
  is_Some (vertexMap st !! k) → is_Some (vertexMap st !! k') →
  find_key (allExportVertices st) k = find_key (allExportVertices st) k' ↔
  k = k'.
Proof.
  intros Hwf [i Hi] [i' Hi'].
  rewrite (find_key_wf st k i Hwf Hi), (find_key_wf st k' i' Hwf Hi').
  split; [|intros <-; congruence].
  intros <-.
  destruct (wf_map_sound _ Hwf _ _ Hi) as (p & Hp & Hk).
  destruct (wf_map_sound _ Hwf _ _ Hi') as (p' & Hp' & Hk').
  congruence.
Qed.

(** * Further properties of the code *)

(** X1. First occurrence wins: once a point has gone through
    [addUniqueVertex], a point with the same key gets the index of the
    first one, and the second call changes nothing in the store. *)
Theorem addUniqueVertex_first_wins (p q : Vector3) (st st1 : Store) (i : nat) :
  vertex_key p = vertex_key q →
  addUniqueVertex p st = (i, st1) →
  addUniqueVertex q st1 = (i, st1).
Proof.
  intros Hk. unfold addUniqueVertex. rewrite <- Hk.
  destruct (vertexMap st !! vertex_key p) as [j|] eqn:Hp.
  - intros [= <- <-]. by rewrite Hp.
  - intros [= <- <-]. simpl. by rewrite lookup_insert_eq.
Qed.

Lemma addUniqueVertex_first_wins_witness :
  let r := addUniqueVertex (mkVector3 0 0 0) empty_store in
  addUniqueVertex (mkVector3 0x1p-20 0 0) r.2 = (r.1, r.2).
Proof.
  intros r.
  apply (addUniqueVertex_first_wins (mkVector3 0 0 0) (mkVector3 0x1p-20 0 0)
           empty_store).
  - by vm_compute.
  - apply surjective_pairing.
Defined.

(** X2. From a well-formed store, [addUniqueVertex] leaves a well-formed
    store, and the index it returns addresses a stored point that has
    the key of the argument. *)
Theorem addUniqueVertex_index_valid (p : Vector3) (st st' : Store) (i : nat) :
  store_wf st →
  addUniqueVertex p st = (i, st') →
  store_wf st' ∧
  ∃ q, allExportVertices st' !! i = Some q ∧ vertex_key q = vertex_key p.
Proof.
  intros Hwf Hrun.
  destruct (addUniqueVertex_wf _ _ _ _ Hwf Hrun) as (Hwf' & _ & Hk & _).
  split; [done|]. by apply (wf_map_sound _ Hwf').
Qed.

Lemma addUniqueVertex_index_valid_witness :
  let r := addUniqueVertex (mkVector3 1 2 3) empty_store in
  store_wf r.2 ∧
  ∃ q, allExportVertices r.2 !! r.1 = Some q ∧
       vertex_key q = vertex_key (mkVector3 1 2 3).
Proof.
  intros r.
  apply (addUniqueVertex_index_valid (mkVector3 1 2 3) empty_store).
  - apply empty_store_wf.
  - apply surjective_pairing.
Defined.

(** X3. Each of the three recursions, started with any arguments on a
    well-formed store, only appends: the points and the faces already
    there stay at the front of the lists, and the map keeps its
    entries. *)
Theorem subdivide_appends (level : nat) (st : Store) :
  store_wf st →
  (∀ p1 p2 p3 p4,
     store_ext st (exec (subdivideTetrahedron level p1 p2 p3 p4) st)) ∧
  (∀ center sideLength,
     store_ext st (exec (subdivideCube level center sideLength) st)) ∧
  (∀ center scale,
     store_ext st (exec (subdivideOctahedron level center scale) st)).
Proof.
  intros Hwf. split_and!; intros.
  - apply (run_ext _ _ _ _ (subdivideTetrahedron_respects _ _ _ _ _ st Hwf)).
  - apply (run_ext _ _ _ _ (subdivideCube_respects _ _ _ st Hwf)).
  - apply (run_ext _ _ _ _ (subdivideOctahedron_respects _ _ _ st Hwf)).
Qed.

Lemma subdivide_appends_witness :
  let st := exec (subdivideOctahedron 0 (mkVector3 0 0 0) 1) empty_store in
  length (allExportVertices st) = 6%nat ∧
  length (allExportFaces st) = 8%nat ∧
  store_ext st (exec (subdivideCube 1 (mkVector3 0 0 0) 3) st).
Proof.
  intros st.
  assert (store_wf st) as Hwf.
  { exact (run_wf _ _ _ _ (subdivideOctahedron_respects 0 (mkVector3 0 0 0) 1
                             empty_store empty_store_wf)). }
  destruct (subdivide_appends 1 st Hwf) as (_ & Hc & _).
  split; [by vm_compute|]. split; [by vm_compute|].
  exact (Hc (mkVector3 0 0 0) 3%float).
Defined.

(** X4. The number of faces is a closed form of the level alone:
    4 * 4^level for the tetrahedron, 12 * 20^level for the sponge and
    8 * 6^level for the octahedron, whatever the size. *)
Theorem face_counts (level : nat) (size : float) :
  length (exportFaces (generateSierpinskiTetrahedron level size)) =
    (4 * 4 ^ level)%nat ∧
  length (exportFaces (generateMengerSponge level size)) =
    (12 * 20 ^ level)%nat ∧
  length (exportFaces (generateSierpinskiOctahedron level size)) =
    (8 * 6 ^ level)%nat.
Proof.
  split_and!.
  - apply (length_faces SierpinskiTetrahedron).
  - apply (length_faces MengerSponge).
  - apply (length_faces SierpinskiOctahedron).
Qed.

(** X5. The number of points is at least 1 and at most the number of
    corners visited: 4 * 4^level, 8 * 20^level and 6 * 6^level for the
    three kinds. *)
Theorem point_count_bounds (kind : FractalType) (level : nat) (size : float) :
  (1 ≤ length (exportVertices (generate kind level size)))%nat ∧
  (length (exportVertices (generate kind level size)) ≤
   corners_per_cell kind * branching kind ^ level)%nat.
Proof.
  split.
  - pose proof (length_faces kind level size) as Hn.
    pose proof (faces_in_range kind level size) as Hf.
    destruct (exportFaces (generate kind level size)) as [|f fs].
    + simpl in Hn. assert (branching kind ^ level ≠ 0)%nat
        by (apply Nat.pow_nonzero; by destruct kind).
      symmetry in Hn. apply Nat.eq_mul_0 in Hn as [Hn|Hn]; [by destruct kind|done].
    + apply Forall_cons in Hf as [[Hv _] _]. lia.
  - rewrite generate_start. simpl.
    destruct (start_spec kind level size) as (_ & -> & _).
    destruct (welded_onto_sublist [] (concat (cells kind level size)))
      as (news & -> & Hsub).
    apply sublist_length in Hsub. simpl. etrans; [exact Hsub|].
    rewrite <- (length_cells kind level size).
    by rewrite (length_concat_const _ _ (cells_length kind level size)).
Qed.

(** X6. Each recursion is one loop over its level-0 cells: on any store
    it has the effect of welding the cells in visiting order, each with
    the face table of the kind. *)
Theorem recursion_is_loop (level : nat) (st : Store) :
  (∀ p1 p2 p3 p4,
     exec (subdivideTetrahedron level p1 p2 p3 p4) st =
     exec (weld_all (tetra_cells level p1 p2 p3 p4) tetra_table) st) ∧
  (∀ center sideLength,
     exec (subdivideCube level center sideLength) st =
     exec (weld_all (cube_cells level center sideLength) cube_table) st) ∧
  (∀ center scale,
     exec (subdivideOctahedron level center scale) st =
     exec (weld_all (octa_cells level center scale) octa_table) st).
Proof.
  split_and!; intros.
  - apply subdivideTetrahedron_fold.
  - apply subdivideCube_fold.
  - apply subdivideOctahedron_fold.
Qed.

(** X7. The output is the reference mesh of the cells: the points are
    the corners in visiting order without those whose key an earlier
    kept corner has; the faces are the table entries of each cell in
    order, each index being the position of the point that has the
    corner's key; the flat buffers are the flattened points and faces. *)
Theorem generate_refines_reference
    (kind : FractalType) (level : nat) (size : float) :
  generate kind level size =
  reference_mesh (table_of kind) (cells kind level size).
Proof. apply generate_is_reference. Qed.

(** X8. The faces follow the cells: the face list corresponds, one to
    one and in order, to the table entries of the visited cells, and
    each index of a face addresses a stored point that has the key of
    the cell corner the entry names. *)
Theorem faces_join_corners (kind : FractalType) (level : nat) (size : float) :
  Forall2 (joins (exportVertices (generate kind level size)))
          (cell_entries (table_of kind) (cells kind level size))
          (exportFaces (generate kind level size)).
Proof.
  rewrite generate_start. simpl.
  destruct (start_spec kind level size) as (Hwf & _ & Hf & Hk).
  rewrite Hf, faces_as_entries.
  apply Forall2_fmap_r, Forall_Forall2_diag, Forall_forall.
  intros [c [[a b] d]] Hin. unfold cell_entries in Hin.
  apply list_elem_of_bind in Hin as (c' & Hin & Hc').
  apply list_elem_of_fmap in Hin as (e & [= -> <-] & He).
  pose proof (proj1 (Forall_forall _ _) (cells_table_ok kind level size) _ Hc')
    as Ht.
  pose proof (proj1 (Forall_forall _ _) Ht _ He) as ((Ha & Hb & Hd) & _).
  pose proof (proj1 (Forall_forall _ _) Hk _ Hc') as Hkc.
  assert (∀ n, (n < length c')%nat →
    stands_for (allExportVertices (exec (start kind level size) empty_store))
      (find_key (allExportVertices (exec (start kind level size) empty_store))
                (corner_key c' n)) c' n) as Hn.
  { intros n Hlt. destruct (lookup_lt_is_Some_2 c' n Hlt) as [v Hv].
    apply (find_key_stands_for _ _ _ v); [done|done|].
    apply (proj1 (Forall_forall _ _) Hkc). by eapply list_elem_of_lookup_2. }
  simpl. split_and!; by apply Hn.
Qed.

(** X9. The points come from the corners and miss none of them: the
    point list is a sublist of the corners of the cells in visiting
    order (unrounded, order of first appearance), and every corner of
    every cell has its key among the keys of the points. *)
Theorem points_from_corners (kind : FractalType) (level : nat) (size : float) :
  exportVertices (generate kind level size)
    `sublist_of` concat (cells kind level size) ∧
  Forall (Forall (λ v,
    vertex_key v ∈ vertex_key <$> exportVertices (generate kind level size)))
    (cells kind level size).
Proof.
  rewrite generate_start. simpl.
  destruct (start_spec kind level size) as (Hwf & Hp & _ & Hk). split.
  - rewrite Hp.
    by destruct (welded_onto_sublist [] (concat (cells kind level size)))
      as (news & -> & Hsub).
  - eapply Forall_impl; [exact Hk|]. intros c Hc.
    eapply Forall_impl; [exact Hc|]. intros v Hv.
    by apply (wf_lookup_iff _ _ Hwf).
Qed.

(** X10. No point is left unused: every index of the point list occurs
    in some face. *)
Theorem every_point_used (kind : FractalType) (level : nat) (size : float) :
  Forall (λ i, Exists (λ f, i ∈ face_indices f)
                      (exportFaces (generate kind level size)))
         (seq 0 (length (exportVertices (generate kind level size)))).
Proof.
  rewrite generate_start. simpl.
  destruct (start_spec kind level size) as (Hwf & Hp & Hf & Hk).
  set (st := exec (start kind level size) empty_store) in *.
  apply Forall_forall. intros i [_ Hi]%elem_of_seq. simpl in Hi.
  destruct (lookup_lt_is_Some_2 _ _ Hi) as [p Hpi].
  assert (p ∈ concat (cells kind level size)) as Hpc.
  { destruct (welded_onto_sublist [] (concat (cells kind level size)))
      as (news & Hnews & Hsub).
    rewrite Hnews in Hp. simpl in Hp.
    eapply elem_of_sublist; [|exact Hsub]. rewrite <- Hp.
    by eapply list_elem_of_lookup_2. }
  apply elem_of_concat in Hpc as (c & Hpin & Hc).
  apply list_elem_of_lookup in Hpin as [a Ha].
  pose proof (proj1 (Forall_forall _ _) (cells_length kind level size) _ Hc)
    as Hlen.
  assert (a < corners_per_cell kind)%nat as Hlt
    by (rewrite <- Hlen; by eapply lookup_lt_Some).
  pose proof (table_of_covers kind a Hlt) as Hex.
  apply Exists_exists in Hex as ([[j k] l] & He & Hjkl).
  assert (find_key (allExportVertices st) (corner_key c a) = i) as Hfind.
  { unfold corner_key. rewrite Ha. simpl. apply find_key_wf; [done|].
    by apply (wf_map_complete _ Hwf). }
  apply Exists_exists.
  exists (face_of (allExportVertices st) c (j, k, l)). split.
  - rewrite Hf. apply list_elem_of_bind. exists c. split; [|done].
    by apply list_elem_of_fmap_2.
  - unfold face_indices. simpl. rewrite !elem_of_cons.
    destruct Hjkl as [<-|[<-|<-]]; rewrite Hfind; auto.
Qed.

(** X11. Level 0 in closed form: when the corners of the one cell have
    pairwise different keys, the output is exactly that cell: its
    corners in order as points, the face table of the kind as faces,
    and the two flattenings as buffers. *)
Theorem level0_mesh (kind : FractalType) (size : float) :
  Forall distinct_keys (cells kind 0 size) →
  generate kind 0 size =
  cell_mesh (concat (cells kind 0 size)) (table_of kind).
Proof.
  intros Hd. rewrite generate_is_reference.
  destruct (level0_cell kind size) as (c & Hc & Hlen). rewrite Hc in *.
  apply Forall_cons in Hd as [Hnd _]. unfold distinct_keys in Hnd.
  unfold reference_mesh, cell_mesh. simpl. rewrite !app_nil_r.
  rewrite (welded_onto_distinct [] c) by done. simpl.
  assert ((face_of c c <$> table_of kind) =
          ((λ '(a, b, d), mkFace a b d) <$> table_of kind)) as ->.
  { apply Forall_fmap_ext. eapply Forall_impl; [apply table_of_ok|].
    intros [[a b] d] ((Ha & Hb & Hdd) & _). simpl.
    assert (∀ n, (n < corners_per_cell kind)%nat →
              find_key c (corner_key c n) = n) as Hn.
    { intros n Hlt. rewrite <- Hlen in Hlt.
      destruct (lookup_lt_is_Some_2 c n Hlt) as [v Hv].
      unfold corner_key. rewrite Hv. simpl. by apply find_key_distinct. }
    by rewrite !Hn. }
  by rewrite table_faces_flat.
Qed.

Lemma level0_mesh_witness :
  generate SierpinskiOctahedron 0 1 =
  cell_mesh (concat (cells SierpinskiOctahedron 0 1)) octa_table.
Proof.
  apply (level0_mesh SierpinskiOctahedron 1).
  apply (bool_decide_unpack
           (Forall distinct_keys (cells SierpinskiOctahedron 0 1))).
  vm_compute. exact I.
Defined.

(** X12. Every entry of the flat index buffer is below the number of
    points, so the buffer handed to the renderer never names a missing
    vertex. *)
Theorem bufferIndices_in_range (kind : FractalType) (level : nat) (size : float) :
  Forall (λ i, (i < length (exportVertices (generate kind level size)))%nat)
         (bufferIndices (generate kind level size)).
Proof.
  pose proof (faces_in_range kind level size) as Hf.
  rewrite generate_start in *. simpl in *.
  rewrite (wf_indices _ (start_wf kind level size)).
  induction Hf as [|f fs (H1 & H2 & H3) _ IH]; [constructor|].
  rewrite fmap_cons. simpl. by repeat constructor.
Qed.

(** X13. Two points have the same key exactly when each of their three
    coordinates renders to the same text: joining with commas never
    confuses two different triples of renderings. *)
Theorem vertex_key_eq_iff (p q : Vector3) :
  vertex_key p = vertex_key q ↔
  toFixed5 (x p) = toFixed5 (x q) ∧
  toFixed5 (y p) = toFixed5 (y q) ∧
  toFixed5 (z p) = toFixed5 (z q).
Proof.
  split.
  - intros Hk. apply vertex_key_inj in Hk. unfold key3 in Hk.
    by injection Hk as -> -> ->.
  - intros (Hx & Hy & Hz). unfold vertex_key. by rewrite Hx, Hy, Hz.
Qed.

(** X14. Selecting a fractal type keeps the size and the colour and sets
    the type; from a level that is not negative it yields a level
    between 0 and [MAX_LEVELS] of the new type, and a level already
    within that bound is kept as it is. *)
Theorem handleFractalTypeChange_level
    (newType : FractalType) (fp : ControlsPanel.FractalParameters) :
  0 ≤ ControlsPanel.level fp →
  let fp' := ControlsPanel.handleFractalTypeChange newType fp in
  ControlsPanel.type fp' = newType ∧
  ControlsPanel.size fp' = ControlsPanel.size fp ∧
  ControlsPanel.color fp' = ControlsPanel.color fp ∧
  0 ≤ ControlsPanel.level fp' ≤ MAX_LEVELS newType ∧
  (ControlsPanel.level fp ≤ MAX_LEVELS newType →
   ControlsPanel.level fp' = ControlsPanel.level fp).
Proof.
  intros Hpos fp'. subst fp'. unfold ControlsPanel.handleFractalTypeChange.
  destruct fp as [t l s c]. simpl in *.
  split_and!; try done.
  - destruct (Z.ltb_spec (MAX_LEVELS newType) l); destruct newType; simpl;
      repeat case_match; lia.
  - destruct (Z.ltb_spec (MAX_LEVELS newType) l); destruct newType; simpl in *;
      repeat case_match; lia.
  - intros Hle. destruct (Z.ltb_spec (MAX_LEVELS newType) l); [lia|].
    destruct newType; try done. by destruct (Z.ltb_spec l 0); [lia|].
Qed.

Lemma handleFractalTypeChange_level_witness :
  let fp := ControlsPanel.mkParams SierpinskiTetrahedron 2 5 "#1E90FF" in
  let fp' := ControlsPanel.handleFractalTypeChange MengerSponge fp in
  ControlsPanel.type fp' = MengerSponge ∧
  ControlsPanel.size fp' = 5%float ∧
  ControlsPanel.color fp' = "#1E90FF" ∧
  0 ≤ ControlsPanel.level fp' ≤ 10 ∧
  ControlsPanel.level fp' = 2.
Proof.
  intros fp fp'.
  destruct (handleFractalTypeChange_level MengerSponge fp)
    as (Ht & Hs & Hc & Hl & Hk); [simpl; lia|].
  split; [exact Ht|]. split; [exact Hs|]. split; [exact Hc|].
  split; [exact Hl|]. apply Hk. simpl. lia.
Defined.

(** X15. After any generation the caller never shows the no-geometry
    message: it builds the preview mesh when the preview is enabled and
    the scene is set up, and nothing otherwise; and the export handler
    finds vertices and faces to export. *)
Theorem generateFractalLogic_outcome
    (kind : FractalType) (level : nat) (size : float)
    (isPreviewDisabled sceneReady : bool) :
  App.generateFractalLogic kind level size isPreviewDisabled sceneReady =
    (if negb isPreviewDisabled && sceneReady then App.MeshBuilt else App.NoMesh) ∧
  App.handleExportObj_exports (exportVertices (generate kind level size))
                              (exportFaces (generate kind level size)) = true.
Proof.
  destruct (output_lengths_positive kind level size) as [Hv Hf].
  unfold App.generateFractalLogic, App.handleExportObj_exports.
  destruct (Nat.eqb_spec (length (exportVertices (generate kind level size))) 0)
    as [Heq|_]; [lia|].
  destruct (Nat.ltb_spec 0 (length (exportVertices (generate kind level size))));
    [|lia].
  destruct (Nat.ltb_spec 0 (length (exportFaces (generate kind level size))));
    [|lia].
  done.
Qed.

(** X16. Running the same recursion a second time on the shared arrays
    stores no new point and doubles the faces. *)
Theorem rerun_adds_no_point (kind : FractalType) (level : nat) (size : float) :
  let st1 := exec (start kind level size) empty_store in
  let st2 := exec (start kind level size) st1 in
  allExportVertices st2 = allExportVertices st1 ∧
  length (allExportFaces st2) = (2 * length (allExportFaces st1))%nat.
Proof.
  intros st1 st2.
  destruct (start_spec kind level size) as (Hwf & _ & _ & Hk).
  fold st1 in Hwf, Hk. split.
  - subst st2. rewrite start_fold.
    destruct (weld_all_spec (cells kind level size) (table_of kind) st1 Hwf
                (cells_table_ok kind level size)) as (_ & _ & -> & _).
    apply welded_onto_absorb, Forall_forall.
    intros v (c & Hv & Hc)%elem_of_concat.
    apply (wf_lookup_iff _ _ Hwf).
    apply (proj1 (Forall_forall _ _) (proj1 (Forall_forall _ _) Hk c Hc) v Hv).
  - subst st2.
    rewrite (run_faces _ _ _ _ (start_respects kind level size st1 Hwf)).
    subst st1.
    rewrite (run_faces _ _ _ _ (start_run_spec kind level size)). simpl. lia.
Qed.

(** X17. A face is degenerate exactly where corners are welded: for the
    face of each table entry of each visited cell, two of its indices
    are equal if and only if the two corners they stand for have the
    same key. *)
Theorem faces_degenerate_iff (kind : FractalType) (level : nat) (size : float) :
  Forall2 degenerate_where_welded
          (cell_entries (table_of kind) (cells kind level size))
          (exportFaces (generate kind level size)).
Proof.
  rewrite generate_start. simpl.
  destruct (start_spec kind level size) as (Hwf & _ & Hf & Hk).
  rewrite Hf, faces_as_entries.
  apply Forall2_fmap_r, Forall_Forall2_diag, Forall_forall.
  intros [c [[a b] d]] Hin. unfold cell_entries in Hin.
  apply list_elem_of_bind in Hin as (c' & Hin & Hc').
  apply list_elem_of_fmap in Hin as (e & [= -> <-] & He).
  pose proof (proj1 (Forall_forall _ _) (cells_table_ok kind level size) _ Hc')
    as Ht.
  pose proof (proj1 (Forall_forall _ _) Ht _ He) as ((Ha & Hb & Hd) & _).
  pose proof (proj1 (Forall_forall _ _) Hk _ Hc') as Hkc.
  assert (∀ n, (n < length c')%nat →
    is_Some (vertexMap (exec (start kind level size) empty_store)
               !! corner_key c' n)) as Hn.
  { intros n Hlt. destruct (lookup_lt_is_Some_2 c' n Hlt) as [v Hv].
    unfold corner_key. rewrite Hv. simpl.
    apply (proj1 (Forall_forall _ _) Hkc). by eapply list_elem_of_lookup_2. }
  simpl. split_and!; apply find_key_eq_iff; auto.
Qed.

(** ** Midpoints *)

Lemma SFadd_comm (a b : spec_float) : SF64add a b = SF64add b a.
Proof.
  unfold SF64add, SFadd.
  destruct a as [[]|[]| |sa ma ea], b as [[]|[]| |sb mb eb]; try reflexivity.
  by rewrite Z.min_comm, Z.add_comm.
Qed.

Lemma float_add_comm (a b : float) : (a + b = b + a)%float.
Proof. apply Prim2SF_inj. rewrite !add_spec. apply SFadd_comm. Qed.

(** X18. The midpoint used by the tetrahedron recursion is, coordinate
    by coordinate, the sum divided by two (multiplying by 0.5 loses
    nothing), and it does not depend on the order of the two points, so
    an edge has one midpoint from whichever end it is computed. *)
Theorem midpoint_half_sum_comm (p q : Vector3) :
  midpoint p q =
    mkVector3 ((x p + x q) / 2)%float ((y p + y q) / 2)%float
              ((z p + z q) / 2)%float ∧
  midpoint p q = midpoint q p.
Proof.
  unfold midpoint, Vector3_multiplyScalar, Vector3_add. simpl. split.
  - by rewrite !mul_half_div_two.
  - by rewrite (float_add_comm (x p)), (float_add_comm (y p)),
      (float_add_comm (z p)).
Qed.

(** ** Size zero *)

Lemma is_zero_add (a b : float) :
  is_zero a = true → is_zero b = true → is_zero (a + b) = true.
Proof.
  unfold is_zero. rewrite add_spec.
  by destruct (Prim2SF a) as [[]| | |], (Prim2SF b) as [[]| | |].
Qed.

Lemma is_zero_sub (a b : float) :
  is_zero a = true → is_zero b = true → is_zero (a - b) = true.
Proof.
  unfold is_zero. rewrite sub_spec.
  by destruct (Prim2SF a) as [[]| | |], (Prim2SF b) as [[]| | |].
Qed.

Lemma is_zero_opp (a : float) : is_zero a = true → is_zero (- a) = true.
Proof. unfold is_zero. rewrite opp_spec. by destruct (Prim2SF a). Qed.

Lemma is_zero_mul_half (a : float) :
  is_zero a = true → is_zero (a * 0.5) = true.
Proof.
  unfold is_zero. rewrite mul_spec.
  change (Prim2SF 0.5) with (S754_finite false two52 (-53)).
  by destruct (Prim2SF a).
Qed.

Lemma is_zero_div_two (a : float) :
  is_zero a = true → is_zero (a / 2) = true.
Proof. intros Ha. rewrite <- mul_half_div_two. by apply is_zero_mul_half. Qed.

Lemma is_zero_div_three (a : float) :
  is_zero a = true → is_zero (a / 3) = true.
Proof.
  unfold is_zero. rewrite div_spec.
  change (Prim2SF 3) with (S754_finite false 6755399441055744 (-51)).
  by destruct (Prim2SF a).
Qed.

Lemma is_zero_of_int_mul (i : Z) (a : float) :
  i ∈ [-1; 0; 1] → is_zero a = true → is_zero (of_int i * a) = true.
Proof.
  intros Hi. unfold is_zero. rewrite mul_spec.
  repeat (apply elem_of_cons in Hi as [->|Hi]);
    [change (Prim2SF (of_int (-1))) with (S754_finite true two52 (-52))
    |change (Prim2SF (of_int 0)) with (S754_zero false)
    |change (Prim2SF (of_int 1)) with (S754_finite false two52 (-52))
    |by apply elem_of_nil in Hi];
    by destruct (Prim2SF a).
Qed.

Lemma zero_vector_key (v : Vector3) :
  zero_vector v → vertex_key v = "0.00000,0.00000,0.00000".
Proof.
  intros (Hx & Hy & Hz). unfold vertex_key.
  assert (∀ a, is_zero a = true → toFixed5 a = "0.00000") as Hz0.
  { intros a. unfold is_zero, toFixed5. by destruct (Prim2SF a). }
  by rewrite !Hz0.
Qed.

Lemma midpoint_zero (p q : Vector3) :
  zero_vector p → zero_vector q → zero_vector (midpoint p q).
Proof.
  intros (? & ? & ?) (? & ? & ?). unfold zero_vector, midpoint. simpl.
  split_and!; by apply is_zero_mul_half, is_zero_add.
Qed.

Lemma tetra_cells_zero (level : nat) (p1 p2 p3 p4 : Vector3) :
  zero_vector p1 → zero_vector p2 → zero_vector p3 → zero_vector p4 →
  Forall (Forall zero_vector) (tetra_cells level p1 p2 p3 p4).
Proof.
  revert p1 p2 p3 p4. induction level as [|level IH]; intros p1 p2 p3 p4 ????.
  - cbn [tetra_cells]. by rewrite Forall_singleton, !Forall_cons, Forall_nil.
  - cbn [tetra_cells]. rewrite !Forall_app.
    split_and!; apply IH; auto using midpoint_zero.
Qed.

Lemma kept_grid_range :
  Forall (λ '(i, j, k), i ∈ [-1; 0; 1] ∧ j ∈ [-1; 0; 1] ∧ k ∈ [-1; 0; 1])
         kept_grid.
Proof.
  unfold kept_grid. apply Forall_forall. intros [[i j] k] Hin.
  apply list_elem_of_bind in Hin as (i' & Hin & Hi).
  apply list_elem_of_bind in Hin as (j' & Hin & Hj).
  apply list_elem_of_bind in Hin as (k' & Hin & Hk).
  destruct (zeroCount i' j' k' <? 2)%nat; [|by apply elem_of_nil in Hin].
  apply list_elem_of_singleton in Hin as [= -> -> ->]. done.
Qed.

Lemma cube_cells_zero (level : nat) (center : Vector3) (sideLength : float) :
  zero_vector center → is_zero sideLength = true →
  Forall (Forall zero_vector) (cube_cells level center sideLength).
Proof.
  revert center sideLength.
  induction level as [|level IH]; intros center sideLength (? & ? & ?) Hs.
  - cbn [cube_cells]. constructor; [|constructor].
    pose proof (is_zero_div_two _ Hs).
    unfold cube_corners, zero_vector.
    repeat constructor; simpl; by (apply is_zero_add || apply is_zero_sub).
  - cbn [cube_cells]. apply Forall_bind.
    eapply Forall_impl; [apply kept_grid_range|].
    intros [[i j] k] (Hi & Hj & Hk). simpl.
    pose proof (is_zero_div_three _ Hs).
    apply IH; [|done]. unfold zero_vector, sub_cube_center. simpl.
    split_and!; by apply is_zero_add, is_zero_of_int_mul.
Qed.

Lemma octa_points_zero (center : Vector3) (scale : float) :
  zero_vector center → is_zero scale = true →
  Forall zero_vector (octa_points center scale).
Proof.
  intros (? & ? & ?) Hs. unfold octa_points, zero_vector.
  repeat constructor; simpl; try done;
    by (apply is_zero_add || apply is_zero_sub).
Qed.

Lemma octa_cells_zero (level : nat) (center : Vector3) (scale : float) :
  zero_vector center → is_zero scale = true →
  Forall (Forall zero_vector) (octa_cells level center scale).
Proof.
  revert center scale.
  induction level as [|level IH]; intros center scale Hc Hs.
  - cbn [octa_cells]. constructor; [|constructor]. by apply octa_points_zero.
  - cbn [octa_cells]. apply Forall_bind.
    pose proof (is_zero_mul_half _ Hs).
    eapply Forall_impl; [by apply (octa_points_zero center (scale * 0.5))|].
    intros c Hcz. simpl. by apply IH.
Qed.

Lemma cells_zero (kind : FractalType) (level : nat) (size : float) :
  is_zero size = true →
  Forall (Forall zero_vector) (cells kind level size).
Proof.
  intros Hs. pose proof (is_zero_opp _ Hs).
  destruct kind; simpl.
  - by apply tetra_cells_zero.
  - by apply cube_cells_zero.
  - by apply octa_cells_zero.
Qed.

Lemma find_key_singleton (v : Vector3) (k : string) : find_key [v] k = 0%nat.
Proof. unfold find_key. simpl. by case_decide. Qed.

(** X19. Size zero is not refused: at every level and for every kind a
    size of 0 (or -0) yields a mesh with exactly one point, in which
    every face is (0, 0, 0). *)
Theorem size_zero_collapses (kind : FractalType) (level : nat) (size : float) :
  is_zero size = true →
  length (exportVertices (generate kind level size)) = 1%nat ∧
  Forall (λ f, f = mkFace 0 0 0) (exportFaces (generate kind level size)).
Proof.
  intros Hs. rewrite generate_start. simpl.
  destruct (start_spec kind level size) as (_ & Hp & Hf & _).
  pose proof (cells_zero kind level size Hs) as Hz.
  assert (Forall zero_vector (concat (cells kind level size))) as Hall.
  { apply Forall_forall. intros v (c & Hv & Hc)%elem_of_concat.
    apply (proj1 (Forall_forall _ _) (proj1 (Forall_forall _ _) Hz c Hc) v Hv). }
  assert (∃ v0, allExportVertices (exec (start kind level size) empty_store)
                = [v0]) as [v0 Hv0].
  { rewrite Hp.
    destruct (concat (cells kind level size)) as [|v0 vs] eqn:Hcat.
    - apply (f_equal length) in Hcat.
      rewrite (length_concat_const _ _ (cells_length kind level size)) in Hcat.
      rewrite length_cells in Hcat. simpl in Hcat.
      apply Nat.eq_mul_0 in Hcat as [Hcat|Hcat]; [by destruct kind|].
      apply Nat.pow_nonzero in Hcat; [done|by destruct kind].
    - exists v0. apply Forall_cons in Hall as [H0 Hall].
      rewrite welded_onto_cons. unfold weld_step.
      rewrite decide_False by (simpl; apply not_elem_of_nil).
      apply welded_onto_absorb. eapply Forall_impl; [exact Hall|].
      intros v Hv. simpl.
      rewrite (zero_vector_key v Hv), (zero_vector_key v0 H0). by left. }
  split; [by rewrite Hv0|].
  rewrite Hf, Hv0. apply Forall_forall. intros f Hin.
  apply list_elem_of_bind in Hin as (c & Hin & _).
  apply list_elem_of_fmap in Hin as ([[a b] d] & -> & _).
  unfold face_of. by rewrite !find_key_singleton.
Qed.

Lemma size_zero_collapses_witness :
  length (exportVertices (generate MengerSponge 2 0)) = 1%nat ∧
  Forall (λ f, f = mkFace 0 0 0) (exportFaces (generate MengerSponge 2 0)).
Proof. apply (size_zero_collapses MengerSponge 2 0). reflexivity. Defined.
